(** * Violet: the execution engine (violet/runner.py)

    A shallow embedding of [Scope] and [Runner] from [violet/runner.py],
    and the properties of the engine's specification stated over it.

    Python objects that are shared and mutated (scopes, function objects)
    are modelled with explicit state: a scope carries its parent chain, and
    function objects live in a heap indexed by reference.  A Python
    exception leaves every mutation made before it in place, so a
    computation yields the final state together with its outcome. *)

From Stdlib Require Import ZArith.
From stdpp Require Import gmap strings list.

Local Open Scope string_scope.
#[local] Set Warnings "-register-all,-clear-no-such-hyp".

(** ** The value model ([violet/objects.py], not part of the sources at hand) *)

Module objects.

(** Classes of the engine's [Object] hierarchy. *)
Inductive Cls := CVoid | CList | CString | CInteger | CBoolean | CFunction.

(** Host (Python) values that are not instances of [objects.Object].
    A class of the hierarchy, such as [objects.Integer] itself, is a host
    value: it is what [_STD_TYPES] holds. *)
Inductive PyVal :=
| PyInt (z : Z)
| PyStr (s : string)
| PyNone
| PyBool (b : bool)
| PyList (items : list PyVal)
| PyBuiltin (name : string)
| PyClass (c : Cls).

(** Modelled from the spec: the typed values of [violet/objects.py]
    ("every runtime value carries a type tag drawn from a fixed set (e.g.
    integer, string, boolean, list, void) or is a thin wrapper around a
    host-native literal awaiting promotion to a typed value").  A function
    value is a reference to its function object.  [Native] is a host value
    that is neither an [Object] nor wrapped. *)
Inductive Value :=
| Integer (z : Z)
| String (s : string)
| Boolean (b : bool)
| Void
| List (items : list Value)
| Function (ref : nat)
| ThinPythonObjectWrapper (p : PyVal)
| Native (p : PyVal).

(** [type(value)] *)
Inductive PyType :=
| Tint | Tstr | TNoneType | Tbool | Tlist | Tbuiltin | Ttype
| TThinPythonObjectWrapper
| TObject (c : Cls).

Definition py_type (p : PyVal) : PyType :=
  match p with
  | PyInt _ => Tint
  | PyStr _ => Tstr
  | PyNone => TNoneType
  | PyBool _ => Tbool
  | PyList _ => Tlist
  | PyBuiltin _ => Tbuiltin
  | PyClass _ => Ttype
  end.

Definition type (value : Value) : PyType :=
  match value with
  | Integer _ => TObject CInteger
  | String _ => TObject CString
  | Boolean _ => TObject CBoolean
  | Void => TObject CVoid
  | List _ => TObject CList
  | Function _ => TObject CFunction
  | ThinPythonObjectWrapper _ => TThinPythonObjectWrapper
  | Native p => py_type p
  end.

Definition cls_name (c : Cls) : string :=
  match c with
  | CVoid => "Void"
  | CList => "List"
  | CString => "String"
  | CInteger => "Integer"
  | CBoolean => "Boolean"
  | CFunction => "Function"
  end.

(** [t.__name__] *)
Definition type_name (t : PyType) : string :=
  match t with
  | Tint => "int"
  | Tstr => "str"
  | TNoneType => "NoneType"
  | Tbool => "bool"
  | Tlist => "list"
  | Tbuiltin => "builtin_function_or_method"
  | Ttype => "type"
  | TThinPythonObjectWrapper => "ThinPythonObjectWrapper"
  | TObject c => cls_name c
  end.

(** [value.__class__.__name__] *)
Definition class_name (value : Value) : string := type_name (type value).

(** [isinstance(value, objects.Object)] *)
Definition is_Object (value : Value) : bool :=
  match value with
  | ThinPythonObjectWrapper _ | Native _ => false
  | _ => true
  end.

(** [value is None] *)
Definition is_None (value : Value) : bool :=
  match value with
  | Native PyNone => true
  | _ => false
  end.

(** Modelled from the spec: "get the type tag of a value".  The tag is
    the name of the value's class, as in the [TypeId] that
    [Scope.reassign_var] builds from [__class__.__name__]. *)
Definition get_type (value : Value) : string := class_name value.

End objects.

Import objects(Value, PyVal, Cls).

(** ** The syntax tree ([violet/vast.py], not part of the sources at hand) *)

Module ast.

Inductive Operator := Times | Minus | LessEqual.

(** Modelled from the spec: expression nodes of the parser's tree, which
    the engine only evaluates through [expr.eval(runner)].  An
    [Identifier] is compared by name only.  [Primitive v] stands for a
    leaf whose evaluation yields [v]. *)
Inductive Expr :=
| Primitive (value : Value)
| Identifier (name : string)
| FunctionCall (name : string) (args : list Expr)
| BiOperatorExpr (op : Operator) (lhs rhs : Expr).

(** [stmt.from_module] of an import: a dotted [Attribute] or a plain
    [Identifier]. *)
Inductive ModuleForm :=
| Attribute (name : string) (attr : string)
| ModuleName (name : string).

(** Statement nodes, with the attributes the engine reads.  Each carries
    its source line. *)
Inductive Stmt :=
| Import (lineno : nat) (from_module : ModuleForm) (importing : list string)
| Assignment (lineno : nat) (global_scope constant : bool)
    (identifier : string) (type : option string) (expression : Expr)
| Reassignment (lineno : nat) (identifier : string) (expression : Expr)
| FunctionDef (lineno : nat) (name : string) (params : list string)
    (body : list Stmt)
| Return (lineno : nat) (expr : option Expr)
| Control (lineno : nat) (condition : Expr) (body : list Stmt)
| Expression (lineno : nat) (e : Expr).

Definition lineno (statement : Stmt) : nat :=
  match statement with
  | Import l _ _ | Assignment l _ _ _ _ _ | Reassignment l _ _
  | FunctionDef l _ _ _ | Return l _ | Control l _ _ | Expression l _ => l
  end.

Definition expr_class_name (e : Expr) : string :=
  match e with
  | Primitive _ => "Primitive"
  | Identifier _ => "Identifier"
  | FunctionCall _ _ => "FunctionCall"
  | BiOperatorExpr _ _ _ => "BiOperatorExpr"
  end.

(** [statement.__class__.__name__] *)
Definition class_name (statement : Stmt) : string :=
  match statement with
  | Import _ _ _ => "Import"
  | Assignment _ _ _ _ _ _ => "Assignment"
  | Reassignment _ _ _ => "Reassignment"
  | FunctionDef _ _ _ _ => "Function"
  | Return _ _ => "Return"
  | Control _ _ _ => "Control"
  | Expression _ e => expr_class_name e
  end.

(** [form.transform_to_string()] *)
Definition transform_to_string (form : ModuleForm) : string :=
  match form with
  | Attribute name attr => name ++ "." ++ attr
  | ModuleName name => name
  end.

End ast.

(** ** Exceptions *)

(** [str(e)], kept structured.  [VarNotFound] and the "is not defined"
    failure of [Runner._exec_assignment] format the same text. *)
Inductive Message :=
| MsgNotDefined (name : string)
| MsgConstReassigned (name : string)
| MsgUnexpected (cls : string)
| MsgModuleMissing (name : string)
| MsgImportFailed (name module : string)
| MsgKeyError (key : string)
| MsgNameError (name : string)
| MsgAttributeError (cls attr : string)
| MsgTypeMismatch (expected : string) (value : Value)
| MsgTypeError (what : string)
| MsgFileNotFound (path : string)
| MsgPanic
| MsgExit (code : Z).

(** [VarNotFound] and [CannotReassignConst] are the classes of
    [runner.py]; [KeyError], [NameError], [AttributeError], [TypeError],
    [FileNotFoundError] and [SystemExit] are Python's own;
    [TypeMismatchError] is what the value model's type check raises;
    [StatementError] and [Panic] come from [violet/errors.py]. *)
Inductive Exc :=
| VarNotFound (var : string)
| CannotReassignConst (var : string)
| KeyError (key : string)
| NameError (name : string)
| AttributeError (cls attr : string)
| TypeMismatchError (expected : string) (value : Value)
| TypeError (what : string)
| FileNotFoundError (path : string)
| Panic
| StatementError (stmt : ast.Stmt) (msg : Message)
| SystemExit (code : Z).

(** [str(e)]; a [StatementError] prints as the message it was given. *)
Definition str (e : Exc) : Message :=
  match e with
  | VarNotFound var => MsgNotDefined var
  | CannotReassignConst var => MsgConstReassigned var
  | KeyError key => MsgKeyError key
  | NameError name => MsgNameError name
  | AttributeError cls attr => MsgAttributeError cls attr
  | TypeMismatchError expected value => MsgTypeMismatch expected value
  | TypeError what => MsgTypeError what
  | FileNotFoundError path => MsgFileNotFound path
  | Panic => MsgPanic
  | StatementError _ msg => msg
  | SystemExit code => MsgExit code
  end.

(** [isinstance(e, Exception)]: [SystemExit] derives from [BaseException]
    only, so [except Exception] lets it through.  Modelled from the spec:
    [Panic] is "not attributable to a single statement" and reaches the
    driver, so the statement boundary lets it through as well. *)
Definition is_Exception (e : Exc) : bool :=
  match e with
  | SystemExit _ | Panic => false
  | _ => true
  end.

(** The outcome of a computation: a result, a raised exception, or no
    outcome within the given recursion depth. *)
Inductive Res (A : Type) :=
| Ok (a : A)
| Raise (e : Exc)
| OutOfFuel.
Arguments Ok {A} a.
Arguments Raise {A} e.
Arguments OutOfFuel {A}.

(** ** Module constants *)

(** [_STD_TYPES]: the built-in type names and the class each denotes. *)
Definition _STD_TYPES : gmap string Value :=
  list_to_map [
    ("nil", objects.Native (objects.PyClass objects.CVoid));
    ("List", objects.Native (objects.PyClass objects.CList));
    ("String", objects.Native (objects.PyClass objects.CString));
    ("Void", objects.Native (objects.PyClass objects.CVoid));
    ("Integer", objects.Native (objects.PyClass objects.CInteger));
    ("Boolean", objects.Native (objects.PyClass objects.CBoolean))
  ].

(** The keys of [_PY_TYPES] and the class each one maps to. *)
Definition _PY_TYPES (t : objects.PyType) : option Cls :=
  match t with
  | objects.Tint => Some objects.CInteger
  | objects.Tstr => Some objects.CString
  | objects.TNoneType => Some objects.CVoid
  | objects.Tlist => Some objects.CList
  | _ => None
  end.

(** Modelled from the spec: [TypeId.type_check] of the value model,
    "type-check value against declared type (fails with a descriptive
    mismatch error)": the declared tag is compared with the value's type
    tag. *)
Definition type_check (type_id : string) (value : Value) : Res unit :=
  if decide (objects.class_name value = type_id) then Ok tt
  else Raise (TypeMismatchError type_id value).

(** ** Scope *)

(** [Scope.vars], [Scope.const_vars] and [Scope.parent].  Identifiers hash
    and compare by name, so the dictionaries are keyed by name.  The parent
    is the parent object itself: what is written to an ancestor through a
    child is what the ancestor holds when the child is left. *)
Inductive Scope := mkScope {
  vars : gmap string Value;
  const_vars : gmap string Value;
  parent : option Scope
}.

(** [Scope(runner)] *)
Definition new_Scope : Scope := mkScope ∅ ∅ None.

(** [d.get(key)]: [None] when the key is missing. *)
Definition dict_get (d : gmap string Value) (key : string) : Value :=
  default (objects.Native objects.PyNone) (d !! key).

(** [key in d] *)
Definition dict_in (key : string) (d : gmap string Value) : bool :=
  bool_decide (is_Some (d !! key)).

(** [Scope.is_var_assigned] *)
Fixpoint is_var_assigned (self : Scope) (identifier : string) (recurse : bool)
  : bool :=
  dict_in identifier (vars self)
  || dict_in identifier (const_vars self)
  || dict_in identifier _STD_TYPES
  || (recurse &&
      match parent self with
      | Some p => is_var_assigned p identifier true
      | None => false
      end).

(** The [try] block of [Scope.get_var]. *)
Definition get_var_local (self : Scope) (identifier : string) : Res Value :=
  match _STD_TYPES !! identifier with
  | Some t => Ok t
  | None =>
      let var := dict_get (vars self) identifier in
      let var := if objects.is_None var
                 then dict_get (const_vars self) identifier else var in
      if objects.is_None var then Raise (VarNotFound identifier)
      else Ok var
  end.

(** [Scope.get_var]: the [except VarNotFound] handler re-raises without a
    parent and asks the parent otherwise. *)
Fixpoint get_var (self : Scope) (identifier : string) : Res Value :=
  match get_var_local self identifier with
  | Raise (VarNotFound var) =>
      match parent self with
      | None => Raise (VarNotFound var)
      | Some p => get_var p identifier
      end
  | r => r
  end.

(** [Scope.reassign_var]: the scope with the binding replaced, or the
    exception raised before anything is written.  [self.vars[identifier]]
    raises [KeyError] when the scope has no such mutable binding. *)
Definition reassign_var (self : Scope) (identifier : string) (value : Value)
  : Res Scope :=
  if dict_in identifier (const_vars self)
  then Raise (CannotReassignConst identifier)
  else
    match vars self !! identifier with
    | None => Raise (KeyError identifier)
    | Some old =>
        match type_check (objects.class_name old) value with
        | Ok _ =>
            Ok (mkScope (<[identifier := value]> (vars self))
                        (const_vars self) (parent self))
        | Raise e => Raise e
        | OutOfFuel => OutOfFuel
        end
    end.

(** [Scope.set_var].  The shadowing warning goes to the error stream and
    is not part of the state. *)
Definition set_var (self : Scope) (identifier : string) (value : Value)
    (const : bool) : Scope :=
  let value :=
    match value with
    | objects.Native p => objects.ThinPythonObjectWrapper p
    | _ => value
    end in
  if const
  then mkScope (vars self) (<[identifier := value]> (const_vars self))
               (parent self)
  else mkScope (<[identifier := value]> (vars self)) (const_vars self)
               (parent self).

(** ** Runner state *)

(** Modelled from the spec: the function value of [violet/objects.py]
    ("captures parameter list, body ...; the original design stores return
    flag/value/type as fields on the function value itself").  The fields
    [return_type], [_return] and [_return_flag] are the ones
    [Runner.exec_function_body] and [Runner._exec_return] read and write. *)
Record FunctionObject := mkFunction {
  fn_name : string;
  fn_params : list string;
  fn_body : list ast.Stmt;
  fn_lineno : nat;
  return_type : option string;
  _return : option Value;
  _return_flag : bool
}.

(** [Runner.scopes] is only ever read at [Runner.active_scope], and every
    scope but the first is made by [new_scope] with the active scope as
    parent: the state keeps the active scope, whose chain ends in
    [Runner.global_scope].  [heap] holds the function objects that
    [objects.Function] values refer to. *)
Record Runner := mkRunner {
  active_scope : Scope;
  heap : list FunctionObject;
  lineno : nat
}.

(** [Runner(code)] *)
Definition new_Runner : Runner := mkRunner new_Scope [] 0.

(** [Runner.get_current_scope] *)
Definition get_current_scope (self : Runner) : Scope := active_scope self.

(** The scope at the end of the parent chain. *)
Fixpoint root (s : Scope) : Scope :=
  match parent s with
  | None => s
  | Some p => root p
  end.

(** [Runner.global_scope] *)
Definition global_scope (self : Runner) : Scope := root (active_scope self).

(** Update of the scope object at the end of the chain. *)
Fixpoint update_root (f : Scope → Scope) (s : Scope) : Scope :=
  match parent s with
  | None => f s
  | Some p => mkScope (vars s) (const_vars s) (Some (update_root f p))
  end.

(** ** Computations over the runner *)

(** A computation takes the runner and yields the runner it leaves
    together with its outcome. *)
Definition M (A : Type) : Type := Runner → Runner * Res A.

Definition ret {A} (a : A) : M A := λ r, (r, Ok a).
Definition raise {A} (e : Exc) : M A := λ r, (r, Raise e).
Definition out_of_fuel {A} : M A := λ r, (r, OutOfFuel).

(** Sequencing: an exception, like the lack of fuel, ends the computation
    and keeps the state reached. *)
Definition bind {A B} (m : M A) (k : A → M B) : M B :=
  λ r, match m r with
       | (r', Ok a) => k a r'
       | (r', Raise e) => (r', Raise e)
       | (r', OutOfFuel) => (r', OutOfFuel)
       end.

Notation "x <- m ;; k" := (bind m (λ x, k))
  (at level 100, m at next level, right associativity).
Notation "m ;;; k" := (bind m (λ _, k))
  (at level 100, right associativity).

(** [try: m  except Exception as e: h(e)] *)
Definition try_except {A} (m : M A) (h : Exc → M A) : M A :=
  λ r, match m r with
       | (r', Raise e) => if is_Exception e then h e r' else (r', Raise e)
       | out => out
       end.

(** The outcome of a method of [Scope], which does not touch the runner. *)
Definition lift {A} (x : Res A) : M A := λ r, (r, x).

(** [self] *)
Definition get_runner : M Runner := λ r, (r, Ok r).

(** The current scope object takes the state [s]. *)
Definition set_scope (s : Scope) : M unit :=
  λ r, (mkRunner s (heap r) (lineno r), Ok tt).

(** The global scope object takes the state [f] gives it. *)
Definition set_global (f : Scope → Scope) : M unit :=
  λ r, (mkRunner (update_root f (active_scope r)) (heap r) (lineno r), Ok tt).

(** Attribute access on the function object at [func]; every reference an
    [objects.Function] value holds is in the heap. *)
Definition get_func (func : nat) : M FunctionObject :=
  λ r, match heap r !! func with
       | Some fo => (r, Ok fo)
       | None => (r, Raise (AttributeError "NoneType" "_return_flag"))
       end.

(** Attribute assignment on the function object at [func]. *)
Definition set_func (func : nat) (f : FunctionObject → FunctionObject) : M unit :=
  λ r, match heap r !! func with
       | Some fo => (mkRunner (active_scope r) (<[func := f fo]> (heap r)) (lineno r), Ok tt)
       | None => (r, Raise (AttributeError "NoneType" "_return_flag"))
       end.

(** [func.return_type = t], [func._return = v], [func._return_flag = b] *)
Definition set_return_type (t : option string) (fo : FunctionObject) :=
  mkFunction (fn_name fo) (fn_params fo) (fn_body fo) (fn_lineno fo)
    t (_return fo) (_return_flag fo).
Definition set_return (v : option Value) (fo : FunctionObject) :=
  mkFunction (fn_name fo) (fn_params fo) (fn_body fo) (fn_lineno fo)
    (return_type fo) v (_return_flag fo).
Definition set_return_flag (b : bool) (fo : FunctionObject) :=
  mkFunction (fn_name fo) (fn_params fo) (fn_body fo) (fn_lineno fo)
    (return_type fo) (_return fo) b.

(** [self.lineno += 1] *)
Definition next_line (r : Runner) : Runner :=
  mkRunner (active_scope r) (heap r) (lineno r + 1).

(** [Runner.new_scope]: the context manager.  The scope left active by the
    body is the one pushed here, so the scope to restore, with whatever was
    written to it or its ancestors meanwhile, is its parent. *)
Definition new_scope {A} (body : M A) : M A :=
  λ r,
    let old_scope := active_scope r in
    let scope := mkScope ∅ ∅ (Some (get_current_scope r)) in
    match body (mkRunner scope (heap r) (lineno r)) with
    | (r', out) =>
        (mkRunner (default old_scope (parent (active_scope r')))
                  (heap r') (lineno r'), out)
    end.

(** [Runner.wrap_py_type]: a static method whose body names [self].  The
    subscription is evaluated before the arguments. *)
Definition wrap_py_type (value : Value) : M Value :=
  match _PY_TYPES (objects.type value) with
  | None => raise (KeyError (objects.type_name (objects.type value)))
  | Some _ => raise (NameError "self")
  end.

(** ** The engine *)

Section Engine.

(** The call engine ([objects.Function.__call__]), one level of
    recursion down. *)
Variable call : nat → list Value → M Value.

(** Modelled from the spec: the value model's operators. *)
Definition operate (op : ast.Operator) (l r : Value) : M Value :=
  match l, r with
  | objects.Integer a, objects.Integer b =>
      ret match op with
          | ast.Times => objects.Integer (a * b)
          | ast.Minus => objects.Integer (a - b)
          | ast.LessEqual => objects.Boolean (a <=? b)%Z
          end
  | _, _ => raise (TypeError "operand")
  end.

(** The arguments of a call, evaluated left to right. *)
Fixpoint eval_args (eval : ast.Expr → M Value) (args : list ast.Expr)
  : M (list Value) :=
  match args with
  | [] => ret []
  | arg :: rest =>
      v <- eval arg ;;
      vs <- eval_args eval rest ;;
      ret (v :: vs)
  end.

(** Modelled from the spec: [expr.eval(runner)].  An identifier is
    looked up with [Runner.get_var]; a call evaluates its arguments in
    the caller's scope and invokes the function object. *)
Fixpoint eval (expr : ast.Expr) : M Value :=
  match expr with
  | ast.Primitive value => ret value
  | ast.Identifier name =>
      self <- get_runner ;;
      lift (get_var (get_current_scope self) name)
  | ast.FunctionCall name args =>
      self <- get_runner ;;
      f <- lift (get_var (get_current_scope self) name) ;;
      argv <- eval_args eval args ;;
      match f with
      | objects.Function ref => call ref argv
      | _ => raise (TypeError "call")
      end
  | ast.BiOperatorExpr op lhs rhs =>
      l <- eval lhs ;;
      r <- eval rhs ;;
      operate op l r
  end.

(** [Runner._exec_assignment(statement, reassign)], with the attributes
    of [statement] it reads. *)
Definition _exec_assignment (statement : ast.Stmt) (reassign : bool)
    (global constant : bool) (identifier : string) (typ : option string)
    (expression : ast.Expr) : M unit :=
  expr <- try_except (eval expression)
            (λ e, raise (StatementError statement (str e))) ;;
  self <- get_runner ;;
  if reassign then
    let scope := get_current_scope self in
    if negb (is_var_assigned scope identifier true)
    then raise (StatementError statement (MsgNotDefined identifier))
    else
      try_except
        (scope' <- lift (reassign_var scope identifier expr) ;;
         set_scope scope')
        (λ e, raise (StatementError statement (str e)))
  else
    match typ with
    | Some t => lift (type_check t expr)
    | None => ret tt
    end ;;;
    if global
    then set_global (λ scope, set_var scope identifier expr constant)
    else set_scope (set_var (get_current_scope self) identifier expr constant).

(** The block under [if func.return_type is None:] in
    [Runner._exec_return]; it yields the value to return. *)
Definition infer_return_type (func : nat) (ret0 : Value) : M Value :=
  fo <- get_func func ;;
  match return_type fo with
  | None =>
      ret1 <- (if objects.is_Object ret0 then ret ret0
               else wrap_py_type ret0) ;;
      set_func func (set_return_type (Some (objects.get_type ret1))) ;;;
      ret ret1
  | Some _ => ret ret0
  end.

(** [Runner._exec_return].  [Void] is not a name of [runner.py]: the
    module imports [objects] only. *)
Definition _exec_return (expr : option ast.Expr) (func : nat) : M unit :=
  ret0 <- match expr with
          | None => raise (NameError "Void")
          | Some e => eval e
          end ;;
  ret1 <- infer_return_type func ret0 ;;
  fo <- get_func func ;;
  match return_type fo with
  | Some t => lift (type_check t ret1)
  | None => raise (AttributeError "NoneType" "type_check")
  end ;;;
  set_func func (set_return (Some ret1)).

(** The loop of [Runner.exec_function_body] around the dispatch [step]. *)
Fixpoint exec_body_loop (step : ast.Stmt → nat → M unit)
    (body : list ast.Stmt) (func : nat) : M unit :=
  match body with
  | [] => ret tt
  | statement :: rest =>
      fo <- get_func func ;;
      if _return_flag fo then ret tt
      else
        (λ r, (next_line r, Ok tt)) ;;;
        step statement func ;;;
        exec_body_loop step rest func
  end.

(** The dispatch of [Runner.exec_function_body].  The conditional is
    modelled from the spec ("control-flow (conditional/loop)"):
    [Control.eval(runner, func)] runs its body through
    [exec_function_body] with the same [func] when its condition holds. *)
Fixpoint exec_function_statement (statement : ast.Stmt) (func : nat)
  : M unit :=
  match statement with
  | ast.Assignment _ global constant identifier typ expression =>
      _exec_assignment statement false global constant identifier typ expression
  | ast.Reassignment _ identifier expression =>
      _exec_assignment statement true false false identifier None expression
  | ast.Return _ expr =>
      _exec_return expr func ;;;
      set_func func (set_return_flag true)
  | ast.Expression _ (ast.FunctionCall name args) =>
      _ <- eval (ast.FunctionCall name args) ;; ret tt
  | ast.Control _ condition body =>
      c <- eval condition ;;
      match c with
      | objects.Boolean true => exec_body_loop exec_function_statement body func
      | objects.Boolean false => ret tt
      | _ => raise (TypeError "condition")
      end
  | _ =>
      raise (StatementError statement (MsgUnexpected (ast.class_name statement)))
  end.

(** [Runner.exec_function_body] *)
Definition exec_function_body (body : list ast.Stmt) (func : nat) : M unit :=
  exec_body_loop exec_function_statement body func.

(** *** Module level *)

(** What [importlib.import_module] finds: the attributes of each host
    module, by full module name. *)
Variable modules : gmap string (gmap string Value).

(** [Runner.open(path).run()]: what the call returns or raises. *)
Variable open_run : string → Res (option Runner).

(** The loop of [_exec_std_import] and of [_exec_local_import]: [fetch]
    resolves one name or raises. *)
Fixpoint import_names (fetch : string → M Value) (importing : list string)
  : M unit :=
  match importing with
  | [] => ret tt
  | name :: rest =>
      var <- fetch name ;;
      self <- get_runner ;;
      set_scope (set_var (get_current_scope self) name var false) ;;;
      import_names fetch rest
  end.

(** The [hasattr]/[getattr] step of [_exec_std_import] for one name. *)
Definition std_fetch (stmt : ast.Stmt) (name : string)
    (module : gmap string Value) (iport : string) : M Value :=
  match module !! iport with
  | None => raise (StatementError stmt (MsgImportFailed iport name))
  | Some attr => ret attr
  end.

(** [Runner._exec_std_import] *)
Definition _exec_std_import (stmt : ast.Stmt) (form : ast.ModuleForm)
    (importing : list string) : M unit :=
  let name := ast.transform_to_string form in
  match modules !! ("violet." ++ name) with
  | None => raise (StatementError stmt (MsgModuleMissing name))
  | Some module => import_names (std_fetch stmt name module) importing
  end.

(** [new.get_current_scope().get_var(name)], where [new] is what
    [Runner.run] returned. *)
Definition get_var_of (new : option Runner) (name : string) : M Value :=
  match new with
  | None => raise (AttributeError "NoneType" "get_current_scope")
  | Some runner => lift (get_var (get_current_scope runner) name)
  end.

(** [Runner._exec_local_import] *)
Definition _exec_local_import (stmt : ast.Stmt) (module_name : string)
    (importing : list string) : M unit :=
  new <- (match open_run (module_name ++ ".vi") with
          | Raise (FileNotFoundError _) =>
              raise (StatementError stmt (MsgModuleMissing module_name))
          | out => lift out
          end) ;;
  import_names
    (λ name,
       try_except (get_var_of new name)
         (λ _, raise (StatementError stmt (MsgImportFailed name module_name))))
    importing.

(** [Runner._exec_import]: a dotted path that does not start at [std]
    falls through both branches and imports nothing. *)
Definition _exec_import (stmt : ast.Stmt) (form : ast.ModuleForm)
    (importing : list string) : M unit :=
  match form with
  | ast.Attribute name _ =>
      if decide (name = "std") then _exec_std_import stmt form importing
      else ret tt
  | ast.ModuleName name =>
      if decide (name = "std") then _exec_std_import stmt form importing
      else _exec_local_import stmt name importing
  end.

(** Modelled from the spec: [ast.Function.eval(runner)] makes the
    function value ("captures parameter list, body"), with no return type,
    return value or return flag yet. *)
Definition Function_eval (line : nat) (name : string)
    (params : list string) (body : list ast.Stmt) : M Value :=
  λ r, (mkRunner (active_scope r)
          (heap r ++ [mkFunction name params body line None None false])
          (lineno r),
        Ok (objects.Function (length (heap r)))).

(** [Runner._exec_function_spawn] *)
Definition _exec_function_spawn (line : nat) (name : string)
    (params : list string) (body : list ast.Stmt) : M unit :=
  f <- Function_eval line name params body ;;
  self <- get_runner ;;
  set_scope (set_var (get_current_scope self) name f false).

(** The [try] block of the loop of [Runner.exec_module_body]. *)
Definition exec_module_statement (statement : ast.Stmt) : M unit :=
  match statement with
  | ast.Import _ form importing => _exec_import statement form importing
  | ast.Assignment _ global constant identifier typ expression =>
      _exec_assignment statement false global constant identifier typ expression
  | ast.Reassignment _ identifier expression =>
      _exec_assignment statement true false false identifier None expression
  | ast.FunctionDef line name params body =>
      _exec_function_spawn line name params body
  | _ =>
      raise (StatementError statement (MsgUnexpected (ast.class_name statement)))
  end.

(** [Runner.exec_module_body] *)
Fixpoint exec_module_body (stmt_list : list ast.Stmt) : M unit :=
  match stmt_list with
  | [] => ret tt
  | statement :: rest =>
      try_except (exec_module_statement statement)
        (λ e, match e with
              | StatementError _ _ => raise e
              | _ => raise (StatementError statement (str e))
              end) ;;;
      exec_module_body rest
  end.

(** [Runner.exec_module] *)
Definition exec_module (body : list ast.Stmt) : M unit :=
  exec_module_body body.

End Engine.

(** Modelled from the spec: the call engine ([objects.Function.__call__]),
    "allocate a new Environment whose parent is the caller's currently
    active environment; bind each formal parameter name to the
    corresponding supplied argument value; run the Statement Dispatcher
    over the function body; after the body finishes, discard the
    Environment and call frame; yield the recorded return value (void if no
    return executed)".  The call frame is the three fields of the function
    object: the flag and the value are cleared on entry and on exit, the
    return type is remembered. *)
Fixpoint bind_params (params : list string) (args : list Value) (scope : Scope)
  : Scope :=
  match params, args with
  | param :: params, arg :: args =>
      bind_params params args (set_var scope param arg false)
  | _, _ => scope
  end.

(** The function object with no return recorded. *)
Definition clear_frame (fo : FunctionObject) : FunctionObject :=
  set_return_flag false (set_return None fo).

(** [func(args, runner=self)] *)
Definition call_function
    (exec_function_body : list ast.Stmt → nat → M unit)
    (func : nat) (args : list Value) : M Value :=
  fo <- get_func func ;;
  new_scope
    (self <- get_runner ;;
     set_scope (bind_params (fn_params fo) args (get_current_scope self)) ;;;
     set_func func clear_frame ;;;
     exec_function_body (fn_body fo) func) ;;;
  fo <- get_func func ;;
  set_func func clear_frame ;;;
  ret (default objects.Void (_return fo)).

(** [fuel] bounds the depth of nested calls. *)
Fixpoint call (fuel : nat) (func : nat) (args : list Value) : M Value :=
  match fuel with
  | 0 => out_of_fuel
  | S fuel => call_function (exec_function_body (call fuel)) func args
  end.

(** ** The program driver *)

(** The files [Runner.open] can read, each with what the lexer and parser
    make of it: a statement list, or [None] when [parser._error_list] is
    not empty. *)
Record Host := mkHost {
  host_modules : gmap string (gmap string Value);
  host_files : gmap string (option (list ast.Stmt))
}.

(** [sys.exit(code)] *)
Definition sys_exit {A} (code : Z) : M A := raise (SystemExit code).

(** [Runner.run], from the parsed [body] on.  The method has no [return]
    statement ([# return self] is a comment): it returns [None]. *)
Definition run_body (call : nat → list Value → M Value)
    (exec_module : list ast.Stmt → M unit) (debug : bool)
    (parsed : option (list ast.Stmt)) : M (option Runner) :=
  match parsed with
  | None => sys_exit 1
  | Some body =>
      (λ r, match exec_module body r with
            | (r', Raise Panic) => sys_exit 9 r'
            | (r', Raise (StatementError stmt msg)) =>
                if debug then (r', Raise (StatementError stmt msg))
                else sys_exit 1 r'
            | out => out
            end) ;;;
      self <- get_runner ;;
      main <- (match get_var (get_current_scope self) "main" with
               | Raise (VarNotFound _) => sys_exit 1
               | out => lift out
               end) ;;
      match main with
      | objects.Function ref =>
          let argv := objects.List [objects.String "a"] in
          try_except (new_scope (call ref [argv]))
            (λ e, if debug then raise e else sys_exit 1) ;;;
          ret None
      | _ => raise (AttributeError (objects.class_name main) "lineno")
      end
  end.

(** [Runner.open(path).run()], on a runner of its own. *)
Definition Runner_open_run (host : Host)
    (run : option (list ast.Stmt) → M (option Runner)) (path : string)
  : Res (option Runner) :=
  match host_files host !! path with
  | None => Raise (FileNotFoundError path)
  | Some parsed => snd (run parsed new_Runner)
  end.

(** [fuel] bounds the depth of nested calls and of nested imports. *)
Fixpoint run (host : Host) (fuel : nat) (debug : bool)
    (parsed : option (list ast.Stmt)) : M (option Runner) :=
  match fuel with
  | 0 => out_of_fuel
  | S fuel' =>
      run_body (call fuel)
        (exec_module (call fuel) (host_modules host)
           (Runner_open_run host (run host fuel' false)))
        debug parsed
  end.

(** * Definitions for the properties *)

(** ** Induction principles *)

(** Induction along the parent chain. *)
Fixpoint Scope_chain_ind (P : Scope → Prop)
    (Hroot : ∀ v c, P (mkScope v c None))
    (Hchild : ∀ v c p, P p → P (mkScope v c (Some p)))
    (s : Scope) : P s :=
  match s with
  | mkScope v c None => Hroot v c
  | mkScope v c (Some p) => Hchild v c p (Scope_chain_ind P Hroot Hchild p)
  end.

(** Structural induction on expressions and statements, through the lists
    they hold. *)
Section SyntaxInduction.

Variable P : ast.Expr → Prop.
Hypothesis HPrimitive : ∀ value, P (ast.Primitive value).
Hypothesis HIdentifier : ∀ name, P (ast.Identifier name).
Hypothesis HFunctionCall : ∀ name args,
  Forall P args → P (ast.FunctionCall name args).
Hypothesis HBiOperatorExpr : ∀ op lhs rhs,
  P lhs → P rhs → P (ast.BiOperatorExpr op lhs rhs).

Fixpoint Expr_nested_ind (e : ast.Expr) : P e :=
  match e with
  | ast.Primitive value => HPrimitive value
  | ast.Identifier name => HIdentifier name
  | ast.FunctionCall name args =>
      HFunctionCall name args
        ((fix go (l : list ast.Expr) : Forall P l :=
            match l with
            | [] => List.Forall_nil P
            | x :: l' => List.Forall_cons P x l' (Expr_nested_ind x) (go l')
            end) args)
  | ast.BiOperatorExpr op lhs rhs =>
      HBiOperatorExpr op lhs rhs (Expr_nested_ind lhs) (Expr_nested_ind rhs)
  end.

Variable Q : ast.Stmt → Prop.
Hypothesis HControl : ∀ line condition body,
  Forall Q body → Q (ast.Control line condition body).
Hypothesis HFunctionDef : ∀ line name params body,
  Forall Q body → Q (ast.FunctionDef line name params body).
Hypothesis HImport : ∀ line form importing, Q (ast.Import line form importing).
Hypothesis HAssignment : ∀ line g c x t e, Q (ast.Assignment line g c x t e).
Hypothesis HReassignment : ∀ line x e, Q (ast.Reassignment line x e).
Hypothesis HReturn : ∀ line e, Q (ast.Return line e).
Hypothesis HExpression : ∀ line e, Q (ast.Expression line e).

Fixpoint Stmt_nested_ind (s : ast.Stmt) : Q s :=
  let go :=
    fix go (l : list ast.Stmt) : Forall Q l :=
      match l with
      | [] => List.Forall_nil Q
      | x :: l' => List.Forall_cons Q x l' (Stmt_nested_ind x) (go l')
      end in
  match s with
  | ast.Import line form importing => HImport line form importing
  | ast.Assignment line g c x t e => HAssignment line g c x t e
  | ast.Reassignment line x e => HReassignment line x e
  | ast.FunctionDef line name params body =>
      HFunctionDef line name params body (go body)
  | ast.Return line e => HReturn line e
  | ast.Control line condition body => HControl line condition body (go body)
  | ast.Expression line e => HExpression line e
  end.

End SyntaxInduction.

(** ** Scopes *)

(** What the spec says of [lookup]: built-in type names first, then the
    mutable bindings, then the const bindings, then the parent; without a
    parent, the name error. *)
Fixpoint lookup (self : Scope) (identifier : string) : Res Value :=
  match _STD_TYPES !! identifier with
  | Some t => Ok t
  | None =>
      match vars self !! identifier with
      | Some v => Ok v
      | None =>
          match const_vars self !! identifier with
          | Some v => Ok v
          | None =>
              match parent self with
              | Some p => lookup p identifier
              | None => Raise (VarNotFound identifier)
              end
          end
      end
  end.

(** No binding of the dictionary holds the host [None]. *)
Definition holds_values (d : gmap string Value) : Prop :=
  map_Forall (λ _ v, objects.is_None v = false) d.

(** No binding of the scope or of an ancestor holds the host [None]. *)
Fixpoint stored_ok (s : Scope) : Prop :=
  holds_values (vars s) ∧ holds_values (const_vars s) ∧
  match parent s with
  | Some p => stored_ok p
  | None => True
  end.

(** The scope chain of the runner satisfies [stored_ok]. *)
Definition scopes_ok (r : Runner) : Prop := stored_ok (active_scope r).

(** The operations on one scope: a declaration, mutable or const, and a
    reassignment, which leaves the scope as it was when it fails. *)
Inductive ScopeOp :=
| SetVar (identifier : string) (value : Value) (const : bool)
| ReassignVar (identifier : string) (value : Value).

(** The scope after one operation. *)
Definition apply_op (scope : Scope) (op : ScopeOp) : Scope :=
  match op with
  | SetVar identifier value const => set_var scope identifier value const
  | ReassignVar identifier value =>
      match reassign_var scope identifier value with
      | Ok scope' => scope'
      | _ => scope
      end
  end.

(** The identifiers a sequence of operations declares with the given
    modifier. *)
Fixpoint declared (const : bool) (ops : list ScopeOp) : gset string :=
  match ops with
  | [] => ∅
  | SetVar identifier _ c :: ops =>
      (if bool_decide (c = const) then {[identifier]} else ∅)
      ∪ declared const ops
  | ReassignVar _ _ :: ops => declared const ops
  end.

(** The current scope after the names of [names] that [module] exports
    have been bound, in order. *)
Definition import_prefix (module : gmap string Value) (names : list string)
    (scope : Scope) : Scope :=
  foldl (λ scope name,
           match module !! name with
           | Some attr => set_var scope name attr false
           | None => scope
           end) scope names.

(** ** Runner states *)

(** The runner with another current scope. *)
Definition with_scope (r : Runner) (scope : Scope) : Runner :=
  mkRunner scope (heap r) (lineno r).





(** The exception [Runner.wrap_py_type] ends in. *)
Definition wrap_py_type_error (value : Value) : Exc :=
  match _PY_TYPES (objects.type value) with
  | Some _ => NameError "self"
  | None => KeyError (objects.type_name (objects.type value))
  end.

(** ** Properties of computations *)

(** [m] raises only exceptions that satisfy [P]. *)
Definition raises {A} (m : M A) (P : Exc → Prop) : Prop :=
  ∀ r r' e, m r = (r', Raise e) → P e.

(** An exception that, if it is a [StatementError], carries [statement]. *)
Definition of_statement (statement : ast.Stmt) (e : Exc) : Prop :=
  match e with
  | StatementError stmt _ => stmt = statement
  | _ => True
  end.


(** Every function whose return type is set in [r] has the same return
    type in [r']. *)
Definition keeps_return_types (r r' : Runner) : Prop :=
  ∀ func fo t,
    heap r !! func = Some fo → return_type fo = Some t →
    ∃ fo', heap r' !! func = Some fo' ∧ return_type fo' = Some t.

(** [m] never changes a return type that is set. *)
Definition stable {A} (m : M A) : Prop :=
  ∀ r r' out, m r = (r', out) → keeps_return_types r r'.

(** [m] keeps the bindings of the scope chain free of the host [None]. *)
Definition preserves {A} (m : M A) : Prop :=
  ∀ r r' out, m r = (r', out) → scopes_ok r → scopes_ok r'.

(** ** Programs and states of the examples *)

(** The reassignment [x = value]. *)
Definition stmt_reassign_x (value : Value) : ast.Stmt :=
  ast.Reassignment 2 "x" (ast.Primitive value).

(** A runner with the given current scope and no function object. *)
Definition runner_with (scope : Scope) : Runner := mkRunner scope [] 0.

(** A host registry whose module [std] exports [a] only. *)
Definition std_a : gmap string (gmap string Value) :=
  {[ "violet.std" := {[ "a" := objects.Integer 1 ]} ]}.

(** The import of [a] and [b] from [std]. *)
Definition import_a_b : ast.Stmt := ast.Import 1 (ast.ModuleName "std") ["a"; "b"].

(** A source file that binds [x] and defines [main]. *)
Definition lib_vi : list ast.Stmt :=
  [ ast.Assignment 1 false false "x" None (ast.Primitive (objects.Integer 1));
    ast.FunctionDef 2 "main" ["argv"] [] ].

(** A host whose only file is [lib.vi]. *)
Definition lib_host : Host := mkHost ∅ {[ "lib.vi" := Some lib_vi ]}.

(** The import of [x] from [lib]. *)
Definition import_x : ast.Stmt := ast.Import 1 (ast.ModuleName "lib") ["x"].

(** A function object that has not returned yet. *)
Definition fresh_function (body : list ast.Stmt) : FunctionObject :=
  mkFunction "f" [] body 1 None None false.

(** A declaration whose value does not match its annotation. *)
Definition decl_x_mistyped : ast.Stmt :=
  ast.Assignment 1 false false "x" (Some "Integer")
    (ast.Primitive (objects.String "a")).

(** The statement [return "a"]. *)
Definition return_string : ast.Stmt :=
  ast.Return 2 (Some (ast.Primitive (objects.String "a"))).


(** [g(n)]: returns a string when [n] holds, the integer 1 otherwise. *)
Definition g_body : list ast.Stmt :=
  [ ast.Control 2 (ast.Identifier "n")
      [ast.Return 3 (Some (ast.Primitive (objects.String "a")))];
    ast.Return 4 (Some (ast.Primitive (objects.Integer 1))) ].

(** The definition of [g]. *)
Definition g_def : ast.Stmt := ast.FunctionDef 1 "g" ["n"] g_body.

(** The runner after the definition of [g]. *)
Definition runner_g : Runner :=
  fst (exec_module (call 0) ∅ (λ path, Raise (FileNotFoundError path))
         [g_def] new_Runner).











(** ** Scopes, further *)

(** The value [Scope.set_var] stores for [value]: a host value goes into a
    [ThinPythonObjectWrapper]. *)
Definition stored (value : Value) : Value :=
  match value with
  | objects.Native p => objects.ThinPythonObjectWrapper p
  | _ => value
  end.

(** The two scope chains have the same length and, below their last scope,
    the same bindings scope by scope: they differ at most in the global
    scope. *)
Fixpoint same_locals (s s' : Scope) : Prop :=
  match parent s, parent s' with
  | None, None => True
  | Some p, Some p' =>
      vars s = vars s' ∧ const_vars s = const_vars s' ∧ same_locals p p'
  | _, _ => False
  end.

(** The same of the chains above the two scopes: they differ at most in
    the scopes themselves and in the global scope. *)
Definition same_outer (s s' : Scope) : Prop :=
  match parent s, parent s' with
  | None, None => True
  | Some p, Some p' => same_locals p p'
  | _, _ => False
  end.

(** [m] leaves the scope chain as it was but for the global scope. *)
Definition isolated {A} (m : M A) : Prop :=
  ∀ r r' out, m r = (r', out) →
    same_locals (active_scope r) (active_scope r').

(** [m] leaves the scope chain as it was but for the current and the
    global scope. *)
Definition local_effect {A} (m : M A) : Prop :=
  ∀ r r' out, m r = (r', out) →
    same_outer (active_scope r) (active_scope r').

(** ** Exits *)

(** If [e] is an exit, its status is 1 or 9. *)
Definition exit_status_ok (e : Exc) : Prop :=
  ∀ code, e = SystemExit code → code = 1%Z ∨ code = 9%Z.

(** * Properties *)


(** ** Scopes *)

Lemma dict_in_true key (d : gmap string Value) :
  dict_in key d = true ↔ is_Some (d !! key).
Proof. unfold dict_in. apply bool_decide_eq_true. Qed.

Lemma dict_in_false key (d : gmap string Value) :
  dict_in key d = false ↔ d !! key = None.
Proof.
  unfold dict_in. rewrite bool_decide_eq_false.
  rewrite eq_None_not_Some. reflexivity.
Qed.

Lemma dict_get_Some (d : gmap string Value) key v :
  d !! key = Some v → dict_get d key = v.
Proof. intros H. unfold dict_get. rewrite H. reflexivity. Qed.

Lemma dict_get_None (d : gmap string Value) key :
  d !! key = None → dict_get d key = objects.Native objects.PyNone.
Proof. intros H. unfold dict_get. rewrite H. reflexivity. Qed.

Lemma get_var_local_lookup self x :
  holds_values (vars self) → holds_values (const_vars self) →
  get_var_local self x =
    match _STD_TYPES !! x with
    | Some t => Ok t
    | None =>
        match vars self !! x with
        | Some v => Ok v
        | None =>
            match const_vars self !! x with
            | Some v => Ok v
            | None => Raise (VarNotFound x)
            end
        end
    end.
Proof.
  intros Hv Hc. unfold get_var_local.
  destruct (_STD_TYPES !! x); [reflexivity |].
  destruct (vars self !! x) as [v |] eqn:Ev.
  - rewrite (dict_get_Some _ _ _ Ev). rewrite (Hv _ _ Ev).
    cbn. rewrite (Hv _ _ Ev). reflexivity.
  - rewrite (dict_get_None _ _ Ev). cbn.
    destruct (const_vars self !! x) as [v |] eqn:Ec.
    + rewrite (dict_get_Some _ _ _ Ec). rewrite (Hc _ _ Ec). reflexivity.
    + rewrite (dict_get_None _ _ Ec). reflexivity.
Qed.

Lemma get_var_is_lookup self x : stored_ok self → get_var self x = lookup self x.
Proof.
  induction self as [v c | v c p IH] using Scope_chain_ind; intros Hok.
  - destruct Hok as (Hv & Hc & _). cbn [get_var lookup parent].
    rewrite get_var_local_lookup by assumption. cbn [vars const_vars].
    destruct (_STD_TYPES !! x); [reflexivity |].
    destruct (v !! x); [reflexivity |].
    destruct (c !! x); reflexivity.
  - destruct Hok as (Hv & Hc & Hp). cbn [get_var lookup parent].
    rewrite get_var_local_lookup by assumption. cbn [vars const_vars].
    destruct (_STD_TYPES !! x); [reflexivity |].
    destruct (v !! x); [reflexivity |].
    destruct (c !! x); [reflexivity |].
    apply IH. exact Hp.
Qed.

Lemma unassigned_lookup self x :
  is_var_assigned self x true = false → lookup self x = Raise (VarNotFound x).
Proof.
  induction self as [v c | v c p IH] using Scope_chain_ind;
    cbn [is_var_assigned lookup parent vars const_vars]; intros H.
  - repeat (apply orb_false_iff in H; destruct H as [H ?]).
    apply dict_in_false in H. rewrite dict_in_false in *.
    repeat match goal with E : _ !! _ = None |- _ => rewrite E; clear E end.
    reflexivity.
  - repeat (apply orb_false_iff in H; destruct H as [H ?]).
    apply dict_in_false in H. rewrite dict_in_false in *.
    repeat match goal with E : _ !! _ = None |- _ => rewrite E; clear E end.
    apply IH. assumption.
Qed.

(** C6.  On scopes whose bindings hold values, [Scope.get_var] is the
    lookup of the spec: the built-in type names, then the scope's mutable
    bindings, then its const bindings, then the parent; and an identifier
    that is bound nowhere along the chain and is no built-in type name
    fails with [VarNotFound], raised where the chain ends. *)
Theorem get_var_lookup_order (self : Scope) (identifier : string) :
  stored_ok self →
  get_var self identifier = lookup self identifier ∧
  (is_var_assigned self identifier true = false →
   get_var self identifier = Raise (VarNotFound identifier)).
Proof.
  intros Hok. split.
  - apply get_var_is_lookup, Hok.
  - intros H. rewrite get_var_is_lookup by exact Hok.
    apply unassigned_lookup, H.
Qed.

(** [stored_ok] holds of every scope the engine builds. *)
Lemma stored_ok_new : stored_ok new_Scope.
Proof. repeat split; apply map_Forall_empty. Qed.

Lemma stored_ok_child p : stored_ok p → stored_ok (mkScope ∅ ∅ (Some p)).
Proof. intros H. repeat split; try apply map_Forall_empty. exact H. Qed.

Lemma stored_ok_set_var self x v const :
  stored_ok self → stored_ok (set_var self x v const).
Proof.
  intros Hok.
  assert (Hnew : objects.is_None
            match v with
            | objects.Native p => objects.ThinPythonObjectWrapper p
            | _ => v
            end = false) by (destruct v; reflexivity).
  destruct self as [vs cs p]. destruct Hok as (Hv & Hc & Hp). cbn in *.
  unfold set_var. destruct const; cbn [vars const_vars parent];
    repeat split; try assumption; apply map_Forall_insert_2; assumption.
Qed.

Lemma class_name_None v :
  objects.class_name v = "NoneType" → objects.is_None v = true.
Proof.
  destruct v as [| | | | | | p | p]; try discriminate.
  destruct p; try discriminate. reflexivity.
Qed.

Lemma is_None_class_name v :
  objects.is_None v = true → objects.class_name v = "NoneType".
Proof.
  destruct v as [| | | | | | p | p]; try discriminate.
  destruct p; try discriminate. reflexivity.
Qed.

Lemma type_check_Ok t v : type_check t v = Ok tt ↔ objects.class_name v = t.
Proof.
  unfold type_check. destruct (decide (objects.class_name v = t)); split;
    intros; try reflexivity; try assumption; try discriminate; contradiction.
Qed.

Lemma type_check_same t v :
  objects.class_name v = t → type_check t v = Ok tt.
Proof. apply type_check_Ok. Qed.

Lemma type_check_differs t v :
  objects.class_name v ≠ t → type_check t v = Raise (TypeMismatchError t v).
Proof. intros H. unfold type_check. destruct (decide _); [contradiction | reflexivity]. Qed.

Lemma reassign_var_const self x v :
  dict_in x (const_vars self) = true →
  reassign_var self x v = Raise (CannotReassignConst x).
Proof. intros H. unfold reassign_var. rewrite H. reflexivity. Qed.

Lemma reassign_var_missing self x v :
  dict_in x (const_vars self) = false → vars self !! x = None →
  reassign_var self x v = Raise (KeyError x).
Proof. intros Hc Hv. unfold reassign_var. rewrite Hc, Hv. reflexivity. Qed.

Lemma reassign_var_same_type self x old v :
  dict_in x (const_vars self) = false → vars self !! x = Some old →
  objects.class_name v = objects.class_name old →
  reassign_var self x v
  = Ok (mkScope (<[x := v]> (vars self)) (const_vars self) (parent self)).
Proof.
  intros Hc Hv Ht. unfold reassign_var. rewrite Hc, Hv.
  rewrite (type_check_same _ _ Ht). reflexivity.
Qed.

Lemma reassign_var_other_type self x old v :
  dict_in x (const_vars self) = false → vars self !! x = Some old →
  objects.class_name v ≠ objects.class_name old →
  reassign_var self x v = Raise (TypeMismatchError (objects.class_name old) v).
Proof.
  intros Hc Hv Ht. unfold reassign_var. rewrite Hc, Hv.
  rewrite (type_check_differs _ _ Ht). reflexivity.
Qed.

(** What [reassign_var] returns, by cases. *)
Lemma reassign_var_cases self x v :
  (reassign_var self x v = Raise (CannotReassignConst x)
     ∧ dict_in x (const_vars self) = true) ∨
  (reassign_var self x v = Raise (KeyError x)
     ∧ dict_in x (const_vars self) = false ∧ vars self !! x = None) ∨
  (∃ old, vars self !! x = Some old ∧ dict_in x (const_vars self) = false ∧
     ((objects.class_name v = objects.class_name old ∧
       reassign_var self x v
       = Ok (mkScope (<[x := v]> (vars self)) (const_vars self) (parent self))) ∨
      (objects.class_name v ≠ objects.class_name old ∧
       reassign_var self x v
       = Raise (TypeMismatchError (objects.class_name old) v)))).
Proof.
  destruct (dict_in x (const_vars self)) eqn:Hc.
  - left. split; [apply reassign_var_const; exact Hc | reflexivity].
  - right. destruct (vars self !! x) as [old |] eqn:Hv.
    + right. exists old. repeat split.
      destruct (decide (objects.class_name v = objects.class_name old)) as [E | E].
      * left. split; [exact E |]. eapply reassign_var_same_type; eassumption.
      * right. split; [exact E |]. eapply reassign_var_other_type; eassumption.
    + left. repeat split. apply reassign_var_missing; assumption.
Qed.

Lemma stored_ok_reassign_var self x v self' :
  stored_ok self → reassign_var self x v = Ok self' → stored_ok self'.
Proof.
  intros Hok H.
  destruct (reassign_var_cases self x v)
    as [[E _] | [[E _] | (old & Hv & Hc & [[Ht E] | [Ht E]])]];
    rewrite E in H; try discriminate.
  injection H as <-.
  destruct self as [vs cs p]. destruct Hok as (Hvs & Hcs & Hp). cbn in *.
  repeat split; try assumption.
  apply map_Forall_insert_2; [| assumption].
  destruct (objects.is_None v) eqn:En; [| reflexivity].
  apply is_None_class_name in En. rewrite Ht in En.
  apply class_name_None in En. rewrite (Hvs _ _ Hv) in En. discriminate.
Qed.

(** C6 on a scope below a global scope that binds [x] as a constant: [x] is
    found through the parent, [y] nowhere. *)
Lemma get_var_lookup_order_witness :
  let s := mkScope ∅ ∅ (Some (set_var new_Scope "x" (objects.Integer 1) true)) in
  get_var s "x" = lookup s "x" ∧ get_var s "y" = Raise (VarNotFound "y").
Proof.
  intros s.
  assert (Hok : stored_ok s)
    by (apply stored_ok_child, stored_ok_set_var, stored_ok_new).
  split.
  - apply (get_var_lookup_order s "x" Hok).
  - apply (get_var_lookup_order s "y" Hok). reflexivity.
Defined.

(** ** Reassignment *)

Lemma bind_Ok {A B} (m : M A) (k : A → M B) r r' a :
  m r = (r', Ok a) → bind m k r = k a r'.
Proof. intros H. unfold bind. rewrite H. reflexivity. Qed.

Lemma bind_Raise {A B} (m : M A) (k : A → M B) r r' e :
  m r = (r', Raise e) → bind m k r = (r', Raise e).
Proof. intros H. unfold bind. rewrite H. reflexivity. Qed.

Lemma bind_OutOfFuel {A B} (m : M A) (k : A → M B) r r' :
  m r = (r', OutOfFuel) → bind m k r = (r', OutOfFuel).
Proof. intros H. unfold bind. rewrite H. reflexivity. Qed.

Lemma try_except_Ok {A} (m : M A) h r r' a :
  m r = (r', Ok a) → try_except m h r = (r', Ok a).
Proof. intros H. unfold try_except. rewrite H. reflexivity. Qed.

(** A reassignment statement, once its expression has been evaluated. *)
Lemma exec_reassignment call stmt g c x t e r r1 v :
  eval call e r = (r1, Ok v) →
  _exec_assignment call stmt true g c x t e r =
    if is_var_assigned (get_current_scope r1) x true then
      match reassign_var (get_current_scope r1) x v with
      | Ok scope => (mkRunner scope (heap r1) (lineno r1), Ok tt)
      | Raise e' => (r1, Raise (StatementError stmt (str e')))
      | OutOfFuel => (r1, OutOfFuel)
      end
    else (r1, Raise (StatementError stmt (MsgNotDefined x))).
Proof.
  intros He. unfold _exec_assignment.
  rewrite (bind_Ok _ _ r r1 v) by (apply try_except_Ok; exact He).
  cbn [bind get_runner].
  destruct (is_var_assigned (get_current_scope r1) x true); cbn [negb];
    [| reflexivity].
  unfold try_except, bind, lift, set_scope, raise.
  destruct (reassign_var_cases (get_current_scope r1) x v)
    as [[E _] | [[E _] | (old & _ & _ & [[_ E] | [_ E]])]];
    rewrite E; reflexivity.
Qed.

Lemma exec_declaration call stmt g c x typ e r r1 v :
  eval call e r = (r1, Ok v) →
  _exec_assignment call stmt false g c x typ e r =
    match match typ with Some t => type_check t v | None => Ok tt end with
    | Ok _ =>
        (with_scope r1
           (if g
            then update_root (λ scope, set_var scope x v c) (active_scope r1)
            else set_var (active_scope r1) x v c), Ok tt)
    | Raise e' => (r1, Raise e')
    | OutOfFuel => (r1, OutOfFuel)
    end.
Proof.
  intros He. unfold _exec_assignment.
  rewrite (bind_Ok _ _ r r1 v) by (apply try_except_Ok; exact He).
  cbn [bind get_runner]. unfold lift, ret.
  destruct typ as [t |]; [destruct (type_check t v) as [[] | e' |] |];
    try reflexivity; destruct g; reflexivity.
Qed.

Lemma is_var_assigned_local scope x recurse :
  dict_in x (vars scope) = true ∨ dict_in x (const_vars scope) = true →
  is_var_assigned scope x recurse = true.
Proof.
  destruct scope as [vs cs p]. cbn [is_var_assigned vars const_vars].
  intros [-> | ->]; rewrite ?orb_true_r; reflexivity.
Qed.

(** C2, as the code has it.  A reassignment acts on the current scope only.
    If the identifier is a const binding of the current scope it fails with
    the const violation of [CannotReassignConst] and nothing changes;
    otherwise, if the current scope has a mutable binding for it, the new
    value is checked against the type tag of the value held and replaces it
    in place, or fails with the type mismatch leaving it as it was; if the
    identifier is visible in no scope of the chain and is no built-in type
    name, it fails with the "is not defined" name error. *)
Theorem reassignment_in_current_scope call stmt x e r r1 v :
  eval call e r = (r1, Ok v) →
  let scope := get_current_scope r1 in
  let out := _exec_assignment call stmt true false false x None e r in
  (dict_in x (const_vars scope) = true →
     reassign_var scope x v = Raise (CannotReassignConst x) ∧
     out = (r1, Raise (StatementError stmt (MsgConstReassigned x)))) ∧
  (dict_in x (const_vars scope) = false →
     ∀ old, vars scope !! x = Some old →
       (objects.class_name v = objects.class_name old →
          out = (mkRunner
                   (mkScope (<[x := v]> (vars scope)) (const_vars scope)
                            (parent scope))
                   (heap r1) (lineno r1), Ok tt)) ∧
       (objects.class_name v ≠ objects.class_name old →
          out = (r1, Raise (StatementError stmt
                             (MsgTypeMismatch (objects.class_name old) v))))) ∧
  (is_var_assigned scope x true = false →
     out = (r1, Raise (StatementError stmt (MsgNotDefined x)))).
Proof.
  intros He scope out. subst out.
  rewrite (exec_reassignment _ _ _ _ _ _ _ _ _ _ He). fold scope.
  split; [| split].
  - intros Hc. rewrite (reassign_var_const _ _ _ Hc).
    rewrite (is_var_assigned_local scope x true (or_intror Hc)).
    split; reflexivity.
  - intros Hc old Hv.
    assert (Hin : dict_in x (vars scope) = true)
      by (apply dict_in_true; eauto).
    rewrite (is_var_assigned_local scope x true (or_introl Hin)).
    split; intros Ht.
    + rewrite (reassign_var_same_type _ _ _ _ Hc Hv Ht). reflexivity.
    + rewrite (reassign_var_other_type _ _ _ _ Hc Hv Ht). reflexivity.
  - intros Ha. rewrite Ha. reflexivity.
Qed.

(** C2 on a scope where [x] is const, on one where it is mutable, with a
    value of the same and of another type, and on one where it is unbound. *)
Lemma reassignment_in_current_scope_witness :
  let const_x := set_var (mkScope ∅ ∅ (Some new_Scope)) "x" (objects.Integer 1) true in
  let var_x := set_var (mkScope ∅ ∅ (Some new_Scope)) "x" (objects.Integer 1) false in
  let exec value scope :=
    _exec_assignment (call 0) (stmt_reassign_x value) true false false "x" None
      (ast.Primitive value) (runner_with scope) in
  snd (exec (objects.Integer 2) const_x)
    = Raise (StatementError (stmt_reassign_x (objects.Integer 2))
               (MsgConstReassigned "x")) ∧
  get_var (active_scope (fst (exec (objects.Integer 2) var_x))) "x"
    = Ok (objects.Integer 2) ∧
  exec (objects.String "a") var_x
    = (runner_with var_x,
       Raise (StatementError (stmt_reassign_x (objects.String "a"))
                (MsgTypeMismatch "Integer" (objects.String "a")))) ∧
  exec (objects.Integer 2) (mkScope ∅ ∅ (Some new_Scope))
    = (runner_with (mkScope ∅ ∅ (Some new_Scope)),
       Raise (StatementError (stmt_reassign_x (objects.Integer 2))
                (MsgNotDefined "x"))).
Proof.
  intros const_x var_x exec. subst exec. cbv beta.
  pose proof (λ value scope,
    reassignment_in_current_scope (call 0) (stmt_reassign_x value) "x"
      (ast.Primitive value) (runner_with scope) (runner_with scope) value
      eq_refl) as H.
  cbv zeta in H.
  split; [| split; [| split]].
  - destruct (H (objects.Integer 2) const_x) as (Hc & _ & _).
    destruct (Hc eq_refl) as [_ ->]. reflexivity.
  - destruct (H (objects.Integer 2) var_x) as (_ & Hm & _).
    destruct (Hm eq_refl (objects.Integer 1) eq_refl) as [Hsame _].
    rewrite Hsame by reflexivity. reflexivity.
  - destruct (H (objects.String "a") var_x) as (_ & Hm & _).
    destruct (Hm eq_refl (objects.Integer 1) eq_refl) as [_ Hother].
    apply Hother. discriminate.
  - destruct (H (objects.Integer 2) (mkScope ∅ ∅ (Some new_Scope)))
      as (_ & _ & Hn).
    apply Hn. reflexivity.
Defined.

(** C2 as stated fails: where a mutable binding of the current scope
    shadows a const binding of an ancestor, the identifier is const in a
    reachable scope and yet the reassignment succeeds, on the current
    scope. *)
Lemma reassignment_shadowed_const :
  let global := set_var new_Scope "x" (objects.Integer 5) true in
  let scope := set_var (mkScope ∅ ∅ (Some global)) "x" (objects.Integer 1) false in
  let out :=
    _exec_assignment (call 0) (stmt_reassign_x (objects.Integer 2)) true
      false false "x" None (ast.Primitive (objects.Integer 2))
      (runner_with scope) in
  dict_in "x" (const_vars global) = true ∧
  parent scope = Some global ∧
  snd out = Ok tt ∧
  get_var (active_scope (fst out)) "x" = Ok (objects.Integer 2).
Proof. repeat split. Qed.

(** C7, as the code has it.  For a mutable binding of the current scope
    whose identifier is not also a const binding there, reassigning it with
    a value of another type tag fails with the type mismatch, raised by
    [Scope.reassign_var] before it writes: the runner is as the evaluation
    of the expression left it, and the binding holds its previous value. *)
Theorem reassign_type_mismatch_atomic call stmt x e r r1 v old :
  eval call e r = (r1, Ok v) →
  vars (get_current_scope r1) !! x = Some old →
  dict_in x (const_vars (get_current_scope r1)) = false →
  objects.class_name v ≠ objects.class_name old →
  let out := _exec_assignment call stmt true false false x None e r in
  reassign_var (get_current_scope r1) x v
    = Raise (TypeMismatchError (objects.class_name old) v) ∧
  out = (r1, Raise (StatementError stmt
                      (str (TypeMismatchError (objects.class_name old) v)))) ∧
  vars (get_current_scope (fst out)) !! x = Some old.
Proof.
  intros He Hv Hc Ht out. subst out.
  pose proof (reassign_var_other_type _ _ _ _ Hc Hv Ht) as Hraise.
  assert (Hin : dict_in x (vars (get_current_scope r1)) = true)
    by (apply dict_in_true; eauto).
  rewrite (exec_reassignment _ _ _ _ _ _ _ _ _ _ He).
  rewrite (is_var_assigned_local _ x true (or_introl Hin)). rewrite Hraise.
  split; [reflexivity | split; [reflexivity | exact Hv]].
Qed.

(** C7 on [x = 1] reassigned with a string. *)
Lemma reassign_type_mismatch_atomic_witness :
  let scope := set_var new_Scope "x" (objects.Integer 1) false in
  let out :=
    _exec_assignment (call 0) (stmt_reassign_x (objects.String "a")) true
      false false "x" None (ast.Primitive (objects.String "a"))
      (runner_with scope) in
  out = (runner_with scope,
         Raise (StatementError (stmt_reassign_x (objects.String "a"))
                  (MsgTypeMismatch "Integer" (objects.String "a")))) ∧
  vars (get_current_scope (fst out)) !! "x" = Some (objects.Integer 1).
Proof.
  intros scope out.
  destruct (reassign_type_mismatch_atomic (call 0)
              (stmt_reassign_x (objects.String "a")) "x"
              (ast.Primitive (objects.String "a"))
              (runner_with scope) (runner_with scope) (objects.String "a")
              (objects.Integer 1) eq_refl eq_refl eq_refl)
    as (_ & Hout & Hx).
  - discriminate.
  - split; [exact Hout | exact Hx].
Defined.

(** C7 as stated fails: an identifier declared mutable and then const in
    the same scope has a mutable binding, the one [get_var] returns, and
    reassigning it with a value of another type tag fails with the const
    violation, not with the type mismatch. *)
Lemma reassign_mismatch_on_const_twin :
  let scope :=
    set_var (set_var new_Scope "x" (objects.Integer 1) false)
      "x" (objects.Integer 2) true in
  vars scope !! "x" = Some (objects.Integer 1) ∧
  get_var scope "x" = Ok (objects.Integer 1) ∧
  objects.class_name (objects.String "a")
    ≠ objects.class_name (objects.Integer 1) ∧
  reassign_var scope "x" (objects.String "a") = Raise (CannotReassignConst "x").
Proof. repeat split. discriminate. Qed.

(** ** Declarations *)

Lemma dom_set_var scope x v const :
  dom (vars (set_var scope x v const))
    = (if const then ∅ else {[x]}) ∪ dom (vars scope) ∧
  dom (const_vars (set_var scope x v const))
    = (if const then {[x]} else ∅) ∪ dom (const_vars scope).
Proof.
  unfold set_var. destruct const; cbn [vars const_vars];
    rewrite ?dom_insert_L; split; set_solver.
Qed.

Lemma dom_reassign_var scope x v scope' :
  reassign_var scope x v = Ok scope' →
  dom (vars scope') = dom (vars scope) ∧
  dom (const_vars scope') = dom (const_vars scope).
Proof.
  intros H.
  destruct (reassign_var_cases scope x v)
    as [[E _] | [[E _] | (old & Hv & Hc & [[Ht E] | [Ht E]])]];
    rewrite E in H; try discriminate.
  injection H as <-. cbn [vars const_vars]. split; [| reflexivity].
  rewrite dom_insert_L.
  assert (x ∈ dom (vars scope)) by (apply elem_of_dom; eauto).
  set_solver.
Qed.

Lemma dom_apply_op scope op :
  dom (vars (apply_op scope op))
    = declared false [op] ∪ dom (vars scope) ∧
  dom (const_vars (apply_op scope op))
    = declared true [op] ∪ dom (const_vars scope).
Proof.
  destruct op as [x v c | x v]; cbn [apply_op declared].
  - destruct (dom_set_var scope x v c) as [-> ->].
    destruct c; cbn; split; set_solver.
  - destruct (reassign_var scope x v) as [scope' | |] eqn:E;
      try (split; set_solver).
    destruct (dom_reassign_var _ _ _ _ E) as [-> ->]. split; set_solver.
Qed.

Lemma dom_foldl_apply_op scope ops :
  dom (vars (foldl apply_op scope ops))
    = dom (vars scope) ∪ declared false ops ∧
  dom (const_vars (foldl apply_op scope ops))
    = dom (const_vars scope) ∪ declared true ops.
Proof.
  revert scope. induction ops as [| op ops IH]; intros scope.
  - cbn. split; set_solver.
  - cbn [foldl]. destruct (IH (apply_op scope op)) as [-> ->].
    destruct (dom_apply_op scope op) as [-> ->].
    destruct op as [x v c | x v]; cbn [declared]; split; set_solver.
Qed.

(** C9, as the code has it.  Over any sequence of declarations and
    reassignments on a scope, its mutable mapping holds the identifiers it
    held before and those declared mutable, its const mapping those it held
    before and those declared const: a declaration writes to one mapping
    and removes nothing from the other, and a reassignment adds no
    identifier to either.  In a scope that was new, an identifier is in
    both mappings exactly if it has been declared both ways. *)
Theorem declared_identifiers scope ops :
  dom (vars (foldl apply_op scope ops))
    = dom (vars scope) ∪ declared false ops ∧
  dom (const_vars (foldl apply_op scope ops))
    = dom (const_vars scope) ∪ declared true ops ∧
  ∀ x,
    x ∈ dom (vars (foldl apply_op new_Scope ops))
    ∧ x ∈ dom (const_vars (foldl apply_op new_Scope ops))
    ↔ x ∈ declared false ops ∧ x ∈ declared true ops.
Proof.
  destruct (dom_foldl_apply_op scope ops) as [Hv Hc].
  split; [exact Hv | split; [exact Hc |]].
  intros x. destruct (dom_foldl_apply_op new_Scope ops) as [-> ->].
  cbn [new_Scope vars const_vars]. rewrite !dom_empty_L. set_solver.
Qed.

(** C9 as stated fails: declaring an identifier const after it was
    declared mutable in the same scope leaves it in both mappings. *)
Lemma declared_both_ways :
  let scope :=
    foldl apply_op new_Scope
      [SetVar "x" (objects.Integer 1) false;
       SetVar "x" (objects.Integer 2) true] in
  vars scope !! "x" = Some (objects.Integer 1) ∧
  const_vars scope !! "x" = Some (objects.Integer 2).
Proof. split; reflexivity. Qed.

(** ** Imports *)

Lemma with_scope_same r : with_scope r (active_scope r) = r.
Proof. destruct r; reflexivity. Qed.

Section StdImport.

Variables (stmt : ast.Stmt) (name : string) (module : gmap string Value).

Abbreviation fetch := (std_fetch stmt name module).

Lemma import_names_fails_at pre x post r :
  Forall (λ n, is_Some (module !! n)) pre → module !! x = None →
  import_names fetch (pre ++ x :: post) r
  = (with_scope r (import_prefix module pre (active_scope r)),
     Raise (StatementError stmt (MsgImportFailed x name))).
Proof.
  intros Hpre Hx. revert r.
  induction Hpre as [| n pre [attr Hn] _ IH]; intros r.
  - cbn [app import_names import_prefix foldl].
    unfold bind, std_fetch, raise. rewrite Hx. rewrite with_scope_same.
    reflexivity.
  - cbn [app import_names import_prefix foldl].
    unfold bind at 1. unfold std_fetch at 1. rewrite Hn. unfold ret at 1.
    cbn [bind get_runner set_scope]. rewrite IH. reflexivity.
Qed.

Lemma import_names_succeeds names r :
  Forall (λ n, is_Some (module !! n)) names →
  import_names fetch names r
  = (with_scope r (import_prefix module names (active_scope r)), Ok tt).
Proof.
  intros Hall. revert r.
  induction Hall as [| n names [attr Hn] _ IH]; intros r.
  - cbn. rewrite with_scope_same. reflexivity.
  - cbn [import_names import_prefix foldl].
    unfold bind at 1. unfold std_fetch at 1. rewrite Hn. unfold ret at 1.
    cbn [bind get_runner set_scope]. rewrite IH. reflexivity.
Qed.

End StdImport.

(** C3, as the code has it.  An import binds its names one at a time, as
    each is resolved.  It binds nothing when the module is not found, be it
    a host module or a source file.  A standard-library import that fails
    at a name has bound, in order, the names listed before it, and they
    stay bound. *)
Theorem failed_import_bindings modules open_run stmt r :
  (∀ form importing,
     modules !! ("violet." ++ ast.transform_to_string form) = None →
     _exec_std_import modules stmt form importing r
     = (r, Raise (StatementError stmt
                    (MsgModuleMissing (ast.transform_to_string form))))) ∧
  (∀ form module pre x post,
     modules !! ("violet." ++ ast.transform_to_string form) = Some module →
     Forall (λ n, is_Some (module !! n)) pre → module !! x = None →
     _exec_std_import modules stmt form (pre ++ x :: post) r
     = (with_scope r (import_prefix module pre (active_scope r)),
        Raise (StatementError stmt
                 (MsgImportFailed x (ast.transform_to_string form))))) ∧
  (∀ module_name importing path,
     open_run (module_name ++ ".vi") = Raise (FileNotFoundError path) →
     _exec_local_import open_run stmt module_name importing r
     = (r, Raise (StatementError stmt (MsgModuleMissing module_name)))).
Proof.
  split; [| split].
  - intros form importing Hm. unfold _exec_std_import. rewrite Hm. reflexivity.
  - intros form module pre x post Hm Hpre Hx. unfold _exec_std_import.
    rewrite Hm. apply import_names_fails_at; assumption.
  - intros module_name importing path Hf. unfold _exec_local_import.
    rewrite Hf. reflexivity.
Qed.

(** C3 on a missing host module, on a module that exports [a] but not [b],
    and on a missing source file. *)
Lemma failed_import_bindings_witness :
  _exec_std_import ∅ import_a_b (ast.ModuleName "std") ["a"; "b"] new_Runner
  = (new_Runner, Raise (StatementError import_a_b (MsgModuleMissing "std"))) ∧
  _exec_std_import std_a import_a_b (ast.ModuleName "std") ["a"; "b"] new_Runner
  = (with_scope new_Runner (set_var new_Scope "a" (objects.Integer 1) false),
     Raise (StatementError import_a_b (MsgImportFailed "b" "std"))) ∧
  _exec_local_import (λ path, Raise (FileNotFoundError path)) import_a_b "lib"
    ["a"] new_Runner
  = (new_Runner, Raise (StatementError import_a_b (MsgModuleMissing "lib"))).
Proof.
  split; [| split].
  - apply (failed_import_bindings ∅ (λ path, Raise (FileNotFoundError path))
             import_a_b new_Runner).
    reflexivity.
  - assert (Ha : Forall (λ n, is_Some (({[ "a" := objects.Integer 1 ]}
                                          : gmap string Value) !! n)) ["a"])
      by (repeat constructor; exists (objects.Integer 1); reflexivity).
    exact (proj1 (proj2 (failed_import_bindings std_a
                           (λ path, Raise (FileNotFoundError path))
                           import_a_b new_Runner))
             (ast.ModuleName "std") {[ "a" := objects.Integer 1 ]} ["a"] "b" []
             eq_refl Ha eq_refl).
  - apply (proj2 (proj2 (failed_import_bindings ∅
                           (λ path, Raise (FileNotFoundError path))
                           import_a_b new_Runner))
             "lib" ["a"] "lib.vi").
    reflexivity.
Defined.

(** C3 as stated fails: a standard-library import of [a] and [b] from a
    module that exports only [a] fails, and [a], unbound before, is bound
    after. *)
Lemma failed_import_leaves_name_bound :
  let out := _exec_import std_a (λ path, Raise (FileNotFoundError path))
               import_a_b (ast.ModuleName "std") ["a"; "b"] new_Runner in
  snd out = Raise (StatementError import_a_b (MsgImportFailed "b" "std")) ∧
  get_var (get_current_scope new_Runner) "a" = Raise (VarNotFound "a") ∧
  get_var (get_current_scope (fst out)) "a" = Ok (objects.Integer 1).
Proof. repeat split. Qed.

(** [Runner.run] returns [None] whenever it returns. *)
Lemma run_body_returns_None call exec debug parsed r r' new :
  run_body call exec debug parsed r = (r', Ok new) → new = None.
Proof.
  unfold run_body, bind, try_except, sys_exit, raise, ret, lift, get_runner.
  intros H.
  repeat
    match type of H with
    | context [match ?x with _ => _ end] => destruct x eqn:?
    end;
    congruence.
Qed.

Lemma run_returns_None host fuel debug parsed r r' new :
  run host fuel debug parsed r = (r', Ok new) → new = None.
Proof.
  destruct fuel as [| fuel]; cbn [run].
  - discriminate.
  - apply run_body_returns_None.
Qed.

Lemma open_run_returns_None host fuel path new :
  Runner_open_run host (run host fuel false) path = Ok new → new = None.
Proof.
  unfold Runner_open_run. destruct (host_files host !! path); [| discriminate].
  destruct (run host fuel false o new_Runner) as [r' out] eqn:E. cbn.
  intros ->. eapply run_returns_None, E.
Qed.

(** C4, on the code: whenever the referenced file exists and its program
    runs to completion, a local-file import that requests at least one name
    fails at the first of them and copies nothing, whatever the referenced
    program bound: [run] returns [None], on which the lookup raises
    [AttributeError]. *)
Theorem local_import_copies_nothing host fuel stmt module_name name rest r new :
  Runner_open_run host (run host fuel false) (module_name ++ ".vi") = Ok new →
  _exec_local_import (Runner_open_run host (run host fuel false)) stmt
    module_name (name :: rest) r
  = (r, Raise (StatementError stmt (MsgImportFailed name module_name))).
Proof.
  intros Hrun. pose proof (open_run_returns_None _ _ _ _ Hrun) as ->.
  unfold _exec_local_import. rewrite Hrun. reflexivity.
Qed.

(** C4 on the import of [x] from [lib]: the program of [lib.vi] runs to
    completion with [x] bound at its root, and the import fails. *)
Lemma local_import_copies_nothing_witness :
  let imported := run lib_host 2 false (Some lib_vi) new_Runner in
  snd imported = Ok None ∧
  get_var (get_current_scope (fst imported)) "x" = Ok (objects.Integer 1) ∧
  _exec_import ∅ (Runner_open_run lib_host (run lib_host 2 false)) import_x
    (ast.ModuleName "lib") ["x"] new_Runner
  = (new_Runner, Raise (StatementError import_x (MsgImportFailed "x" "lib"))).
Proof.
  split; [reflexivity | split; [reflexivity |]].
  exact (local_import_copies_nothing lib_host 2 import_x "lib" "x" []
           new_Runner None eq_refl).
Defined.

(** ** Return of a host value *)

Lemma wrap_py_type_raises value r :
  wrap_py_type value r = (r, Raise (wrap_py_type_error value)).
Proof.
  unfold wrap_py_type, wrap_py_type_error.
  destruct (_PY_TYPES (objects.type value)); reflexivity.
Qed.

(** C10, as the code has it.  A return statement whose value is not an
    instance of [objects.Object], executed for a function whose return type
    is not yet set, never completes: [wrap_py_type] raises [NameError] for
    the undefined [self] when the host type of the value is a key of
    [_PY_TYPES], and [KeyError] from the table lookup, which comes first,
    when it is not.  The runner is left as the evaluation of the expression
    left it: no return type, value or flag is recorded. *)
Theorem return_of_host_value call line e func r r1 v fo :
  eval call e r = (r1, Ok v) →
  objects.is_Object v = false →
  heap r1 !! func = Some fo → return_type fo = None →
  _exec_return call (Some e) func r = (r1, Raise (wrap_py_type_error v)) ∧
  exec_function_statement call (ast.Return line (Some e)) func r
    = (r1, Raise (wrap_py_type_error v)) ∧
  (wrap_py_type_error v = NameError "self"
     ↔ is_Some (_PY_TYPES (objects.type v))).
Proof.
  intros He Hv Hf Ht.
  assert (H : _exec_return call (Some e) func r
              = (r1, Raise (wrap_py_type_error v))).
  { unfold _exec_return. rewrite (bind_Ok _ _ _ _ _ He).
    apply bind_Raise. unfold infer_return_type.
    unfold bind at 1. unfold get_func at 1. rewrite Hf. rewrite Ht, Hv.
    unfold bind. rewrite wrap_py_type_raises. reflexivity. }
  split; [exact H | split].
  - cbn [exec_function_statement]. apply bind_Raise. exact H.
  - unfold wrap_py_type_error.
    destruct (_PY_TYPES (objects.type v)); split; intros H';
      try reflexivity; try discriminate; eauto.
    destruct H' as [? ?]; discriminate.
Qed.

(** C10 on the return of a host integer. *)
Lemma return_of_host_value_witness :
  let r := mkRunner new_Scope [fresh_function []] 0 in
  exec_function_statement (call 0)
    (ast.Return 2 (Some (ast.Primitive (objects.Native (objects.PyInt 7))))) 0 r
  = (r, Raise (NameError "self")).
Proof.
  intros r.
  exact (proj1 (proj2 (return_of_host_value (call 0) 2
           (ast.Primitive (objects.Native (objects.PyInt 7))) 0 r r
           (objects.Native (objects.PyInt 7)) (fresh_function [])
           eq_refl eq_refl eq_refl eq_refl))).
Defined.

(** C10 as stated fails: for a host value whose type is no key of
    [_PY_TYPES], such as a host boolean, the promotion raises [KeyError],
    not [NameError]. *)
Lemma return_of_host_bool_raises_KeyError :
  let r := mkRunner new_Scope [fresh_function []] 0 in
  let v := objects.Native (objects.PyBool true) in
  objects.is_Object v = false ∧
  return_type (fresh_function []) = None ∧
  wrap_py_type v r = (r, Raise (KeyError "bool")) ∧
  exec_function_statement (call 0) (ast.Return 2 (Some (ast.Primitive v))) 0 r
  = (r, Raise (KeyError "bool")).
Proof. repeat split. Qed.

(** ** The statement boundary *)

Lemma raises_ret {A} (a : A) P : raises (ret a) P.
Proof. intros r r' e H. discriminate. Qed.

Lemma raises_raise {A} e (P : Exc → Prop) : P e → raises (@raise A e) P.
Proof. intros HP r r' e' H. injection H as _ <-. exact HP. Qed.

Lemma raises_lift {A} (x : Res A) (P : Exc → Prop) :
  (∀ e, x = Raise e → P e) → raises (lift x) P.
Proof. intros HP r r' e H. injection H as _ H. apply HP, H. Qed.

Lemma raises_bind {A B} (m : M A) (k : A → M B) P :
  raises m P → (∀ a, raises (k a) P) → raises (bind m k) P.
Proof.
  intros Hm Hk r r' e. unfold bind.
  destruct (m r) as [r1 [a | e1 |]] eqn:E; intros H.
  - eapply Hk, H.
  - injection H as _ <-. eapply Hm, E.
  - discriminate.
Qed.

Lemma raises_try_except {A} (m : M A) h (P : Exc → Prop) :
  raises m (λ e, is_Exception e = false → P e) →
  (∀ e, is_Exception e = true → raises (h e) P) →
  raises (try_except m h) P.
Proof.
  intros Hm Hh r r' e. unfold try_except.
  destruct (m r) as [r1 [a | e1 |]] eqn:E; try discriminate.
  destruct (is_Exception e1) eqn:Ex; intros H.
  - eapply Hh; eassumption.
  - injection H as _ <-. eapply Hm; eassumption.
Qed.

Lemma raises_try_except_from {A} (m : M A) h (P Q : Exc → Prop) :
  raises m Q →
  (∀ e, Q e → is_Exception e = true → raises (h e) P) →
  (∀ e, Q e → is_Exception e = false → P e) →
  raises (try_except m h) P.
Proof.
  intros Hm Hh Hpass r r' e. unfold try_except.
  destruct (m r) as [r1 [a | e1 |]] eqn:E; try discriminate.
  pose proof (Hm _ _ _ E) as HQ.
  destruct (is_Exception e1) eqn:Ex; intros H.
  - eapply Hh; eassumption.
  - injection H as _ <-. apply Hpass; assumption.
Qed.

Lemma raises_weaken {A} (m : M A) (P Q : Exc → Prop) :
  raises m P → (∀ e, P e → Q e) → raises m Q.
Proof. intros Hm HPQ r r' e H. eapply HPQ, Hm, H. Qed.

Lemma raises_set_scope s P : raises (set_scope s) P.
Proof. intros r r' e H. discriminate. Qed.

Lemma raises_set_global f P : raises (set_global f) P.
Proof. intros r r' e H. discriminate. Qed.

Lemma raises_get_runner P : raises get_runner P.
Proof. intros r r' e H. discriminate. Qed.

Lemma get_var_local_raises self x e :
  get_var_local self x = Raise e → e = VarNotFound x.
Proof.
  unfold get_var_local. destruct (_STD_TYPES !! x); [discriminate |].
  destruct (objects.is_None _); [| discriminate].
  intros H. injection H as <-. reflexivity.
Qed.

Lemma get_var_raises self x e :
  get_var self x = Raise e → e = VarNotFound x.
Proof.
  induction self as [v c | v c p IH] using Scope_chain_ind;
    cbn [get_var parent];
    destruct (get_var_local _ x) as [a | e' |] eqn:E; try discriminate;
    apply get_var_local_raises in E as ->.
  - intros H. injection H as <-. reflexivity.
  - exact IH.
Qed.

Lemma type_check_raises t v e :
  type_check t v = Raise e → e = TypeMismatchError t v.
Proof.
  unfold type_check. destruct (decide _); [discriminate |].
  intros H. injection H as <-. reflexivity.
Qed.

Lemma reassign_var_raises self x v e :
  reassign_var self x v = Raise e →
  e = CannotReassignConst x ∨ e = KeyError x
  ∨ ∃ t, e = TypeMismatchError t v.
Proof.
  intros H.
  destruct (reassign_var_cases self x v)
    as [[E _] | [[E _] | (old & _ & _ & [[_ E] | [_ E]])]];
    rewrite E in H; try discriminate; injection H as <-; eauto.
Qed.

Section Boundary.

Variable call : nat → list Value → M Value.
Variable modules : gmap string (gmap string Value).
Variable open_run : string → Res (option Runner).

(** A nested run hands no [StatementError] to its importer: outside debug
    mode [Runner.run] turns it into an exit. *)
Hypothesis open_run_exits : ∀ path stmt msg,
  open_run path ≠ Raise (StatementError stmt msg).

Lemma raises_exec_assignment statement reassign g c x t e :
  raises (_exec_assignment call statement reassign g c x t e)
    (of_statement statement).
Proof.
  unfold _exec_assignment.
  apply raises_bind.
  { apply raises_try_except.
    - intros r r' e' H Hx. destruct e'; try exact I; discriminate.
    - intros e' _. apply raises_raise. reflexivity. }
  intros v. apply raises_bind; [apply raises_get_runner |]. intros self.
  destruct reassign.
  - destruct (negb _); [apply raises_raise; reflexivity |].
    apply raises_try_except.
    + intros r r' e' H Hx. destruct e'; try exact I; discriminate.
    + intros e' _. apply raises_raise. reflexivity.
  - apply raises_bind.
    + destruct t as [t |]; [| apply raises_ret].
      apply raises_lift. intros e' H. apply type_check_raises in H as ->.
      exact I.
    + intros _. destruct g; [apply raises_set_global | apply raises_set_scope].
Qed.

Lemma raises_import_names fetch names P :
  (∀ name, raises (fetch name) P) → raises (import_names fetch names) P.
Proof.
  intros Hf. induction names as [| name rest IH]; cbn [import_names].
  - apply raises_ret.
  - apply raises_bind; [apply Hf |]. intros var.
    apply raises_bind; [apply raises_get_runner |]. intros self.
    apply raises_bind; [apply raises_set_scope |]. intros _. exact IH.
Qed.

Lemma raises_exec_import stmt form importing :
  raises (_exec_import modules open_run stmt form importing)
    (of_statement stmt).
Proof.
  assert (Hstd : raises (_exec_std_import modules stmt form importing)
                   (of_statement stmt)).
  { unfold _exec_std_import. destruct (modules !! _) as [module |].
    - apply raises_import_names. intros name. unfold std_fetch.
      destruct (module !! name); [apply raises_ret |].
      apply raises_raise. reflexivity.
    - apply raises_raise. reflexivity. }
  unfold _exec_import. destruct form as [base attr | base];
    destruct (decide (base = "std")); try exact Hstd;
    [apply raises_ret |].
  unfold _exec_local_import. apply raises_bind.
  - destruct (open_run _) as [new | e |] eqn:E.
    + apply raises_lift. discriminate.
    + assert (He : of_statement stmt e)
        by (destruct e; try exact I; exfalso; eapply open_run_exits, E).
      destruct e;
        try (apply raises_lift; intros e' H; injection H as <-; exact He).
      apply raises_raise. reflexivity.
    + apply raises_lift. discriminate.
  - intros new. apply raises_import_names. intros name.
    apply raises_try_except.
    + intros r r' e H Hx. destruct e; try exact I; discriminate.
    + intros e _. apply raises_raise. reflexivity.
Qed.

Lemma raises_exec_module_statement statement :
  raises (exec_module_statement call modules open_run statement)
    (of_statement statement).
Proof.
  destruct statement; cbn [exec_module_statement];
    try (apply raises_raise; reflexivity).
  - apply raises_exec_import.
  - apply raises_exec_assignment.
  - apply raises_exec_assignment.
  - unfold _exec_function_spawn.
    apply raises_bind; [intros r r' e H; discriminate |]. intros f.
    apply raises_bind; [apply raises_get_runner |]. intros self.
    apply raises_set_scope.
Qed.

(** Whatever [exec_module_body] raises that is an [Exception] is a
    [StatementError] of one of its statements. *)
Lemma exec_module_body_raises stmt_list :
  raises (exec_module_body call modules open_run stmt_list)
    (λ e, is_Exception e = true →
          ∃ statement msg, statement ∈ stmt_list
                           ∧ e = StatementError statement msg).
Proof.
  induction stmt_list as [| statement rest IH]; cbn [exec_module_body].
  - apply raises_ret.
  - apply raises_bind.
    + eapply raises_try_except_from.
      * apply raises_exec_module_statement.
      * intros e Hs Hx r r' e' H _.
        destruct e; injection H as _ <-;
          exists statement; eexists; (split; [apply list_elem_of_here |]);
          try reflexivity.
        cbn in Hs. rewrite Hs. reflexivity.
      * intros e _ Hx Hx'. congruence.
    + intros _.
      eapply raises_weaken; [exact IH |].
      intros e H Hx. destruct (H Hx) as (s & m & Hin & ->).
      exists s, m. split; [apply list_elem_of_further, Hin | reflexivity].
Qed.

End Boundary.








(** ** The return type of a function *)

Lemma keeps_refl r : keeps_return_types r r.
Proof. intros func fo t Hf Ht. eauto. Qed.

Lemma keeps_trans r1 r2 r3 :
  keeps_return_types r1 r2 → keeps_return_types r2 r3 →
  keeps_return_types r1 r3.
Proof.
  intros H12 H23 func fo t Hf Ht.
  destruct (H12 _ _ _ Hf Ht) as (fo2 & Hf2 & Ht2). eauto.
Qed.

Lemma keeps_same_heap r r' : heap r' = heap r → keeps_return_types r r'.
Proof. intros E func fo t Hf Ht. rewrite E. eauto. Qed.

Lemma stable_pure {A} (m : M A) :
  (∀ r, heap (fst (m r)) = heap r) → stable m.
Proof.
  intros Hm r r' out H. apply keeps_same_heap.
  specialize (Hm r). rewrite H in Hm. exact Hm.
Qed.

Lemma stable_ret {A} (a : A) : stable (ret a).
Proof. apply stable_pure. reflexivity. Qed.

Lemma stable_raise {A} e : stable (@raise A e).
Proof. apply stable_pure. reflexivity. Qed.

Lemma stable_out_of_fuel {A} : stable (@out_of_fuel A).
Proof. apply stable_pure. reflexivity. Qed.

Lemma stable_lift {A} (x : Res A) : stable (lift x).
Proof. apply stable_pure. reflexivity. Qed.

Lemma stable_get_runner : stable get_runner.
Proof. apply stable_pure. reflexivity. Qed.

Lemma stable_set_scope s : stable (set_scope s).
Proof. apply stable_pure. reflexivity. Qed.

Lemma stable_set_global f : stable (set_global f).
Proof. apply stable_pure. reflexivity. Qed.

Lemma stable_get_func func : stable (get_func func).
Proof.
  apply stable_pure. intros r. unfold get_func.
  destruct (heap r !! func); reflexivity.
Qed.

Lemma stable_bind {A B} (m : M A) (k : A → M B) :
  stable m → (∀ a, stable (k a)) → stable (bind m k).
Proof.
  intros Hm Hk r r' out. unfold bind.
  destruct (m r) as [r1 [a | e |]] eqn:E; intros H.
  - eapply keeps_trans; [eapply Hm, E | eapply Hk, H].
  - injection H as <- _. eapply Hm, E.
  - injection H as <- _. eapply Hm, E.
Qed.

Lemma stable_try_except {A} (m : M A) h :
  stable m → (∀ e, stable (h e)) → stable (try_except m h).
Proof.
  intros Hm Hh r r' out. unfold try_except.
  destruct (m r) as [r1 [a | e |]] eqn:E; intros H;
    try (injection H as <- _; eapply Hm, E).
  destruct (is_Exception e).
  - eapply keeps_trans; [eapply Hm, E | eapply Hh, H].
  - injection H as <- _. eapply Hm, E.
Qed.

Lemma stable_new_scope {A} (body : M A) : stable body → stable (new_scope body).
Proof.
  intros Hb r r' out. unfold new_scope.
  destruct (body _) as [r1 out1] eqn:E. intros H. injection H as <- _.
  intros func fo t Hf Ht.
  exact (Hb _ _ _ E func fo t Hf Ht).
Qed.

(** An update of a function object that leaves its return type alone. *)
Lemma stable_set_func func f :
  (∀ fo, return_type (f fo) = return_type fo) → stable (set_func func f).
Proof.
  intros Hf r r' out. unfold set_func.
  destruct (heap r !! func) as [fo |] eqn:E; intros H; injection H as <- _;
    [| apply keeps_refl].
  intros func' fo' t Hl Ht. cbn [heap].
  destruct (decide (func = func')) as [<- | Hne].
  - exists (f fo). split.
    + apply list_lookup_insert_eq. eapply lookup_lt_Some, E.
    + rewrite Hf. congruence.
  - exists fo'. split; [| exact Ht].
    rewrite list_lookup_insert_ne by exact Hne. exact Hl.
Qed.

Lemma keeps_set_unset r func fo f :
  heap r !! func = Some fo → return_type fo = None →
  keeps_return_types r
    (mkRunner (active_scope r) (<[func := f fo]> (heap r)) (lineno r)).
Proof.
  intros Hf Hnone func' fo' t Hl Ht. cbn [heap].
  destruct (decide (func = func')) as [<- | Hne].
  - congruence.
  - exists fo'. split; [| exact Ht].
    rewrite list_lookup_insert_ne by exact Hne. exact Hl.
Qed.

Section Stability.

Variable call : nat → list Value → M Value.
Hypothesis stable_call : ∀ func args, stable (call func args).

Lemma stable_operate op l r : stable (operate op l r).
Proof.
  unfold operate. destruct l; try apply stable_raise.
  destruct r; try apply stable_raise. apply stable_ret.
Qed.

Lemma stable_eval_args ev args :
  Forall (λ e, stable (ev e)) args → stable (eval_args ev args).
Proof.
  induction 1 as [| e args He _ IH]; cbn [eval_args].
  - apply stable_ret.
  - apply stable_bind; [exact He |]. intros v.
    apply stable_bind; [exact IH |]. intros vs. apply stable_ret.
Qed.

Lemma stable_eval e : stable (eval call e).
Proof.
  induction e as [value | name | name args IH | op lhs rhs IHl IHr]
    using Expr_nested_ind; cbn [eval].
  - apply stable_ret.
  - apply stable_bind; [apply stable_get_runner |]. intros self.
    apply stable_lift.
  - apply stable_bind; [apply stable_get_runner |]. intros self.
    apply stable_bind; [apply stable_lift |]. intros f.
    apply stable_bind; [apply stable_eval_args, IH |]. intros argv.
    destruct f; try apply stable_raise. apply stable_call.
  - apply stable_bind; [exact IHl |]. intros l.
    apply stable_bind; [exact IHr |]. intros r. apply stable_operate.
Qed.

Lemma stable_exec_assignment statement reassign g c x t e :
  stable (_exec_assignment call statement reassign g c x t e).
Proof.
  unfold _exec_assignment. apply stable_bind.
  { apply stable_try_except; [apply stable_eval |].
    intros e'. apply stable_raise. }
  intros v. apply stable_bind; [apply stable_get_runner |]. intros self.
  destruct reassign.
  - destruct (negb _); [apply stable_raise |].
    apply stable_try_except; [| intros e'; apply stable_raise].
    apply stable_bind; [apply stable_lift |]. intros s. apply stable_set_scope.
  - apply stable_bind.
    + destruct t; [apply stable_lift | apply stable_ret].
    + intros _. destruct g; [apply stable_set_global | apply stable_set_scope].
Qed.

(** The return type is written only where it is unset. *)
Lemma stable_infer func ret0 : stable (infer_return_type func ret0).
Proof.
  intros r r' out. unfold infer_return_type.
  unfold bind at 1. unfold get_func at 1.
  destruct (heap r !! func) as [fo |] eqn:Hf;
    [| intros H; injection H as <- _; apply keeps_refl].
  destruct (return_type fo) as [t |] eqn:Ht;
    [intros H; injection H as <- _; apply keeps_refl |].
  unfold bind. destruct (objects.is_Object ret0).
  - unfold ret, set_func. rewrite Hf. intros H. injection H as <- _.
    apply keeps_set_unset; assumption.
  - rewrite wrap_py_type_raises. intros H. injection H as <- _.
    apply keeps_refl.
Qed.

Lemma stable_exec_return expr func : stable (_exec_return call expr func).
Proof.
  unfold _exec_return. apply stable_bind.
  { destruct expr; [apply stable_eval | apply stable_raise]. }
  intros ret0. apply stable_bind; [apply stable_infer |]. intros ret1.
  apply stable_bind; [apply stable_get_func |]. intros fo.
  apply stable_bind.
  { destruct (return_type fo); [apply stable_lift | apply stable_raise]. }
  intros _. apply stable_set_func. reflexivity.
Qed.

Lemma stable_exec_body_loop step body func :
  Forall (λ statement, stable (step statement func)) body →
  stable (exec_body_loop step body func).
Proof.
  induction 1 as [| statement rest Hs _ IH]; cbn [exec_body_loop].
  - apply stable_ret.
  - apply stable_bind; [apply stable_get_func |]. intros fo.
    destruct (_return_flag fo); [apply stable_ret |].
    apply stable_bind; [apply stable_pure; reflexivity |]. intros _.
    apply stable_bind; [exact Hs |]. intros _. exact IH.
Qed.

Lemma stable_exec_function_statement statement func :
  stable (exec_function_statement call statement func).
Proof.
  induction statement
    as [line condition body IH | line name params body _ | line form importing
        | line g c x t e | line x e | line e | line e]
    using Stmt_nested_ind; cbn [exec_function_statement];
    try apply stable_raise.
  - apply stable_bind; [apply stable_eval |]. intros c.
    destruct c; try apply stable_raise.
    destruct b; [| apply stable_ret].
    apply stable_exec_body_loop. exact IH.
  - apply stable_exec_assignment.
  - apply stable_exec_assignment.
  - apply stable_bind; [apply stable_exec_return |]. intros _.
    apply stable_set_func. reflexivity.
  - destruct e; try apply stable_raise.
    apply stable_bind; [apply (stable_eval (ast.FunctionCall _ _)) |].
    intros _. apply stable_ret.
Qed.

Lemma stable_exec_function_body body func :
  stable (exec_function_body call body func).
Proof.
  apply stable_exec_body_loop, Forall_forall. intros statement _.
  apply stable_exec_function_statement.
Qed.

End Stability.

Lemma stable_call_function exec func args :
  (∀ body f, stable (exec body f)) → stable (call_function exec func args).
Proof.
  intros Hexec. unfold call_function.
  apply stable_bind; [apply stable_get_func |]. intros fo.
  apply stable_bind.
  { apply stable_new_scope.
    apply stable_bind; [apply stable_get_runner |]. intros self.
    apply stable_bind; [apply stable_set_scope |]. intros _.
    apply stable_bind; [apply stable_set_func; reflexivity |]. intros _.
    apply Hexec. }
  intros _. apply stable_bind; [apply stable_get_func |]. intros fo'.
  apply stable_bind; [apply stable_set_func; reflexivity |]. intros _.
  apply stable_ret.
Qed.

(** No call, at any depth, changes a return type that is set. *)
Lemma stable_call fuel func args : stable (call fuel func args).
Proof.
  revert func args. induction fuel as [| fuel IH]; intros func args;
    cbn [call].
  - apply stable_out_of_fuel.
  - apply stable_call_function. intros body f.
    apply stable_exec_function_body. exact IH.
Qed.







(** *** Reading and writing a function object *)

Lemma get_func_eq r func fo :
  heap r !! func = Some fo → get_func func r = (r, Ok fo).
Proof. intros H. unfold get_func. rewrite H. reflexivity. Qed.










(** ** Recursion *)

(** *** Evaluation, step by step *)





(** *** The loop of a function body, step by step *)


Lemma exec_body_loop_next step statement rest func r fo :
  heap r !! func = Some fo → _return_flag fo = false →
  exec_body_loop step (statement :: rest) func r
  = bind (step statement func) (λ _, exec_body_loop step rest func)
      (next_line r).
Proof.
  intros Hf Hflag. cbn [exec_body_loop].
  rewrite (bind_Ok _ _ _ _ _ (get_func_eq _ _ _ Hf)). rewrite Hflag.
  reflexivity.
Qed.

(** *** The call engine *)



(** *** Recursive factorial *)



Section FactBody.

Variable callf : nat → list Value → M Value.
Variables (E : Runner) (func : nat) (fo : FunctionObject) (z : Z)
  (caller : Scope).

Hypothesis E_scope :
  active_scope E = mkScope (<["n" := objects.Integer z]> ∅) ∅ (Some caller).
Hypothesis E_func : heap E !! func = Some fo.
Hypothesis E_flag : _return_flag fo = false.





End FactBody.




(** *** Factorial with the recursive call before the return *)

Section FactLetBody.

Variable callf : nat → list Value → M Value.
Variables (E : Runner) (func : nat) (fo : FunctionObject) (z : Z)
  (caller : Scope).

Hypothesis E_scope :
  active_scope E = mkScope (<["n" := objects.Integer z]> ∅) ∅ (Some caller).
Hypothesis E_func : heap E !! func = Some fo.
Hypothesis E_flag : _return_flag fo = false.





End FactLetBody.






(** ** The scopes of the engine hold values *)

Lemma preserves_pure {A} (m : M A) :
  (∀ r, active_scope (fst (m r)) = active_scope r) → preserves m.
Proof.
  intros Hm r r' out H Hok. unfold scopes_ok.
  specialize (Hm r). rewrite H in Hm. cbn in Hm. rewrite Hm. exact Hok.
Qed.

Lemma preserves_ret {A} (a : A) : preserves (ret a).
Proof. apply preserves_pure. reflexivity. Qed.

Lemma preserves_raise {A} e : preserves (@raise A e).
Proof. apply preserves_pure. reflexivity. Qed.

Lemma preserves_lift {A} (x : Res A) : preserves (lift x).
Proof. apply preserves_pure. reflexivity. Qed.

Lemma preserves_get_func func : preserves (get_func func).
Proof.
  apply preserves_pure. intros r. unfold get_func.
  destruct (heap r !! func); reflexivity.
Qed.

Lemma preserves_set_func func f : preserves (set_func func f).
Proof.
  apply preserves_pure. intros r. unfold set_func.
  destruct (heap r !! func); reflexivity.
Qed.

Lemma preserves_wrap_py_type v : preserves (wrap_py_type v).
Proof. apply preserves_pure. intros r. rewrite wrap_py_type_raises. reflexivity. Qed.

Lemma preserves_bind {A B} (m : M A) (k : A → M B) :
  preserves m → (∀ a, preserves (k a)) → preserves (bind m k).
Proof.
  intros Hm Hk r r' out. unfold bind.
  destruct (m r) as [r1 [a | e |]] eqn:E; intros H Hok.
  - eapply Hk; [exact H |]. eapply Hm; eassumption.
  - injection H as <- _. eapply Hm; eassumption.
  - injection H as <- _. eapply Hm; eassumption.
Qed.

Lemma preserves_try_except {A} (m : M A) h :
  preserves m → (∀ e, preserves (h e)) → preserves (try_except m h).
Proof.
  intros Hm Hh r r' out. unfold try_except.
  destruct (m r) as [r1 [a | e |]] eqn:E; intros H Hok;
    try (injection H as <- _; eapply Hm; eassumption).
  destruct (is_Exception e).
  - eapply Hh; [exact H |]. eapply Hm; eassumption.
  - injection H as <- _. eapply Hm; eassumption.
Qed.

(** [self <- get_runner ;; k self], where [k] is run on the runner it was
    given. *)
Lemma preserves_with_runner {A} (k : Runner → M A) :
  (∀ r r' out, k r r = (r', out) → scopes_ok r → scopes_ok r') →
  preserves (bind get_runner k).
Proof. intros Hk r r' out H. exact (Hk r r' out H). Qed.

(** [self <- get_runner ;; set_scope (g (get_current_scope self))] *)
Lemma preserves_modify_scope (g : Scope → Scope) :
  (∀ s, stored_ok s → stored_ok (g s)) →
  preserves (bind get_runner
               (λ self, set_scope (g (get_current_scope self)))).
Proof.
  intros Hg r r' out H Hok.
  assert (E : r' = mkRunner (g (active_scope r)) (heap r) (lineno r))
    by (cbv [bind get_runner set_scope get_current_scope] in H; congruence).
  rewrite E. apply Hg, Hok.
Qed.

Lemma stored_ok_parent s p : stored_ok s → parent s = Some p → stored_ok p.
Proof.
  intros Hok E. destruct s as [v c q]. cbn in E. subst q.
  destruct Hok as (_ & _ & Hp). exact Hp.
Qed.

Lemma stored_ok_update_root f s :
  (∀ s, stored_ok s → stored_ok (f s)) → stored_ok s →
  stored_ok (update_root f s).
Proof.
  intros Hf. induction s as [v c | v c p IH] using Scope_chain_ind;
    intros Hok; cbn [update_root parent].
  - apply Hf, Hok.
  - destruct Hok as (Hv & Hc & Hp). repeat split; try assumption.
    apply IH, Hp.
Qed.

Lemma stored_ok_bind_params params args s :
  stored_ok s → stored_ok (bind_params params args s).
Proof.
  revert args s. induction params as [| param params IH];
    intros [| arg args] s Hok; cbn [bind_params]; try exact Hok.
  apply IH, stored_ok_set_var, Hok.
Qed.

Lemma preserves_new_scope {A} (body : M A) :
  preserves body → preserves (new_scope body).
Proof.
  intros Hb r r' out. unfold new_scope.
  destruct (body _) as [r1 out1] eqn:E. intros H Hok. injection H as <- _.
  assert (Hok1 : scopes_ok r1)
    by (eapply Hb; [exact E |]; apply stored_ok_child, Hok).
  unfold scopes_ok in *. cbn [active_scope].
  destruct (parent (active_scope r1)) as [p |] eqn:Ep; cbn [from_option id].
  - eapply stored_ok_parent; eassumption.
  - exact Hok.
Qed.

Section ScopesInvariant.

Variable call : nat → list Value → M Value.
Hypothesis preserves_call : ∀ func args, preserves (call func args).

Lemma preserves_operate op l r : preserves (operate op l r).
Proof.
  unfold operate. destruct l; try apply preserves_raise.
  destruct r; try apply preserves_raise. apply preserves_ret.
Qed.

Lemma preserves_eval_args ev args :
  Forall (λ e, preserves (ev e)) args → preserves (eval_args ev args).
Proof.
  induction 1 as [| e args He _ IH]; cbn [eval_args].
  - apply preserves_ret.
  - apply preserves_bind; [exact He |]. intros v.
    apply preserves_bind; [exact IH |]. intros vs. apply preserves_ret.
Qed.

Lemma preserves_eval e : preserves (eval call e).
Proof.
  induction e as [value | name | name args IH | op lhs rhs IHl IHr]
    using Expr_nested_ind; cbn [eval].
  - apply preserves_ret.
  - apply preserves_bind; [apply preserves_pure; reflexivity |]. intros self.
    apply preserves_lift.
  - apply preserves_bind; [apply preserves_pure; reflexivity |]. intros self.
    apply preserves_bind; [apply preserves_lift |]. intros f.
    apply preserves_bind; [apply preserves_eval_args, IH |]. intros argv.
    destruct f; try apply preserves_raise. apply preserves_call.
  - apply preserves_bind; [exact IHl |]. intros l.
    apply preserves_bind; [exact IHr |]. intros r. apply preserves_operate.
Qed.

Lemma preserves_exec_assignment statement reassign g c x t e :
  preserves (_exec_assignment call statement reassign g c x t e).
Proof.
  unfold _exec_assignment. apply preserves_bind.
  { apply preserves_try_except; [apply preserves_eval |].
    intros e'. apply preserves_raise. }
  intros v. apply preserves_with_runner. intros r r' out.
  destruct reassign.
  - destruct (negb _); [intros H Hok; injection H as <- _; exact Hok |].
    unfold try_except, bind, lift, set_scope, raise.
    destruct (reassign_var _ x v) as [scope' | e' |] eqn:E; intros H Hok.
    + injection H as <- _. eapply stored_ok_reassign_var; eassumption.
    + destruct (is_Exception e'); injection H as <- _; exact Hok.
    + injection H as <- _. exact Hok.
  - unfold bind, lift, set_global, set_scope, ret.
    destruct t as [t |]; [destruct (type_check t v) |];
      destruct g; intros H Hok; injection H as <- _; try exact Hok;
      unfold scopes_ok; cbn [active_scope];
      first [ apply stored_ok_update_root;
              [intros s Hs; apply stored_ok_set_var, Hs | exact Hok]
            | apply stored_ok_set_var, Hok ].
Qed.

Lemma preserves_exec_return expr func : preserves (_exec_return call expr func).
Proof.
  unfold _exec_return, infer_return_type. apply preserves_bind.
  { destruct expr; [apply preserves_eval | apply preserves_raise]. }
  intros ret0. apply preserves_bind.
  { apply preserves_bind; [apply preserves_get_func |]. intros fo.
    destruct (return_type fo); [apply preserves_ret |].
    apply preserves_bind.
    - destruct (objects.is_Object ret0);
        [apply preserves_ret | apply preserves_wrap_py_type].
    - intros ret1. apply preserves_bind; [apply preserves_set_func |].
      intros _. apply preserves_ret. }
  intros ret1. apply preserves_bind; [apply preserves_get_func |]. intros fo.
  apply preserves_bind.
  { destruct (return_type fo); [apply preserves_lift | apply preserves_raise]. }
  intros _. apply preserves_set_func.
Qed.

Lemma preserves_exec_body_loop step body func :
  Forall (λ statement, preserves (step statement func)) body →
  preserves (exec_body_loop step body func).
Proof.
  induction 1 as [| statement rest Hs _ IH]; cbn [exec_body_loop].
  - apply preserves_ret.
  - apply preserves_bind; [apply preserves_get_func |]. intros fo.
    destruct (_return_flag fo); [apply preserves_ret |].
    apply preserves_bind; [apply preserves_pure; reflexivity |]. intros _.
    apply preserves_bind; [exact Hs |]. intros _. exact IH.
Qed.

Lemma preserves_exec_function_statement statement func :
  preserves (exec_function_statement call statement func).
Proof.
  induction statement
    as [line condition body IH | line name params body _ | line form importing
        | line g c x t e | line x e | line e | line e]
    using Stmt_nested_ind; cbn [exec_function_statement];
    try apply preserves_raise.
  - apply preserves_bind; [apply preserves_eval |]. intros c.
    destruct c; try apply preserves_raise.
    destruct b; [| apply preserves_ret].
    apply preserves_exec_body_loop. exact IH.
  - apply preserves_exec_assignment.
  - apply preserves_exec_assignment.
  - apply preserves_bind; [apply preserves_exec_return |]. intros _.
    apply preserves_set_func.
  - destruct e; try apply preserves_raise.
    apply preserves_bind; [apply (preserves_eval (ast.FunctionCall _ _)) |].
    intros _. apply preserves_ret.
Qed.

Lemma preserves_exec_function_body body func :
  preserves (exec_function_body call body func).
Proof.
  apply preserves_exec_body_loop, Forall_forall. intros statement _.
  apply preserves_exec_function_statement.
Qed.

Lemma preserves_import_names fetch names :
  (∀ name, preserves (fetch name)) → preserves (import_names fetch names).
Proof.
  intros Hf. induction names as [| name rest IH]; cbn [import_names].
  - apply preserves_ret.
  - apply preserves_bind; [apply Hf |]. intros var.
    apply preserves_with_runner. intros r r' out H Hok.
    unfold bind, set_scope in H. eapply IH; [exact H |].
    apply stored_ok_set_var, Hok.
Qed.

Lemma preserves_exec_module_body modules open_run stmt_list :
  preserves (exec_module_body call modules open_run stmt_list).
Proof.
  induction stmt_list as [| statement rest IH];
    cbn [exec_module_body]; [apply preserves_ret |].
  apply preserves_bind; [| intros _; exact IH].
  apply preserves_try_except;
    [| intros e; destruct e; apply preserves_raise].
  destruct statement; cbn [exec_module_statement]; try apply preserves_raise.
  - unfold _exec_import.
    assert (Hstd : preserves
                     (_exec_std_import modules
                        (ast.Import lineno0 from_module importing)
                        from_module importing)).
    { unfold _exec_std_import. destruct (modules !! _) as [module |];
        [| apply preserves_raise].
      apply preserves_import_names. intros iport. unfold std_fetch.
      destruct (module !! iport); [apply preserves_ret | apply preserves_raise]. }
    destruct from_module as [base attr | base];
      destruct (decide (base = "std")); try exact Hstd;
      [apply preserves_ret |].
    unfold _exec_local_import. apply preserves_bind.
    + destruct (open_run _) as [new | e |]; try apply preserves_lift.
      destruct e; first [apply preserves_raise | apply preserves_lift].
    + intros new. apply preserves_import_names. intros iport.
      apply preserves_try_except; [| intros e; apply preserves_raise].
      destruct new; [apply preserves_lift | apply preserves_raise].
  - apply preserves_exec_assignment.
  - apply preserves_exec_assignment.
  - unfold _exec_function_spawn.
    apply preserves_bind; [apply preserves_pure; reflexivity |]. intros f.
    apply (preserves_modify_scope (λ s, set_var s name f false)).
    intros s. apply stored_ok_set_var.
Qed.

End ScopesInvariant.

Lemma preserves_call_function exec func args :
  (∀ body f, preserves (exec body f)) → preserves (call_function exec func args).
Proof.
  intros Hexec. unfold call_function.
  apply preserves_bind; [apply preserves_get_func |]. intros fo.
  apply preserves_bind.
  { apply preserves_new_scope.
    apply preserves_with_runner. intros r r' out H Hok.
    unfold bind at 1 in H. unfold set_scope at 1 in H.
    eapply (preserves_bind (set_func func clear_frame)
              (λ _, exec (fn_body fo) func));
      [apply preserves_set_func | intros _; apply Hexec | exact H |].
    apply stored_ok_bind_params, Hok. }
  intros _. apply preserves_bind; [apply preserves_get_func |]. intros fo'.
  apply preserves_bind; [apply preserves_set_func |]. intros _.
  apply preserves_ret.
Qed.

(** No call, at any depth, stores the host [None] in a scope. *)
Lemma preserves_call fuel func args : preserves (call fuel func args).
Proof.
  revert func args. induction fuel as [| fuel IH]; intros func args;
    cbn [call].
  - apply preserves_pure. reflexivity.
  - apply preserves_call_function. intros body f.
    apply preserves_exec_function_body. exact IH.
Qed.

(** Nor does any top-level statement: every scope chain the engine reaches
    from a new runner satisfies [stored_ok]. *)
Lemma scopes_ok_exec_module fuel modules open_run body r' out :
  exec_module (call fuel) modules open_run body new_Runner = (r', out) →
  scopes_ok r'.
Proof.
  intros H.
  eapply (preserves_exec_module_body (call fuel) (preserves_call fuel));
    [exact H |].
  apply stored_ok_new.
Qed.


(** * Further properties of the engine *)

(** ** Declaration and lookup *)

Lemma stored_not_None v : objects.is_None (stored v) = false.
Proof. destruct v; reflexivity. Qed.

Lemma set_var_stored self x v const :
  set_var self x v const
  = if const
    then mkScope (vars self) (<[x := stored v]> (const_vars self)) (parent self)
    else mkScope (<[x := stored v]> (vars self)) (const_vars self) (parent self).
Proof. reflexivity. Qed.

(** [get_var] depends on the scope through its local lookup and its
    parent. *)
Lemma get_var_ext s s' x :
  get_var_local s x = get_var_local s' x → parent s = parent s' →
  get_var s x = get_var s' x.
Proof.
  destruct s as [v c p], s' as [v' c' p']. cbn [parent]. intros Hl <-.
  destruct p; cbn [get_var parent]; rewrite Hl; reflexivity.
Qed.

Lemma get_var_found s x v : get_var_local s x = Ok v → get_var s x = Ok v.
Proof. destruct s as [vs cs [p |]]; cbn [get_var]; intros ->; reflexivity. Qed.

Lemma get_var_local_written vs cs p x v :
  _STD_TYPES !! x = None → objects.is_None v = false →
  get_var_local (mkScope (<[x := v]> vs) cs p) x = Ok v.
Proof.
  intros Hstd Hv. unfold get_var_local. rewrite Hstd. cbv zeta.
  cbn [vars const_vars]. unfold dict_get. rewrite lookup_insert_eq.
  cbn [from_option id]. rewrite Hv. cbv iota. rewrite Hv. reflexivity.
Qed.

Lemma get_var_local_const_written vs cs p x v :
  _STD_TYPES !! x = None → vs !! x = None → objects.is_None v = false →
  get_var_local (mkScope vs (<[x := v]> cs) p) x = Ok v.
Proof.
  intros Hstd Hvs Hv. unfold get_var_local. rewrite Hstd. cbv zeta.
  cbn [vars const_vars]. unfold dict_get. rewrite Hvs, lookup_insert_eq.
  cbn [from_option id objects.is_None]. rewrite Hv. reflexivity.
Qed.

Lemma get_var_local_other_vars vs cs p x y v :
  x ≠ y →
  get_var_local (mkScope (<[y := v]> vs) cs p) x
  = get_var_local (mkScope vs cs p) x.
Proof.
  intros Hne. unfold get_var_local, dict_get. cbn [vars const_vars].
  rewrite lookup_insert_ne by congruence. reflexivity.
Qed.

Lemma get_var_local_other_const vs cs p x y v :
  x ≠ y →
  get_var_local (mkScope vs (<[y := v]> cs) p) x
  = get_var_local (mkScope vs cs p) x.
Proof.
  intros Hne. unfold get_var_local, dict_get. cbn [vars const_vars].
  rewrite lookup_insert_ne by congruence. reflexivity.
Qed.

Lemma get_var_set_var_eq self x v const :
  _STD_TYPES !! x = None → (const = true → vars self !! x = None) →
  get_var (set_var self x v const) x = Ok (stored v).
Proof.
  intros Hstd Hc. apply get_var_found. rewrite set_var_stored.
  destruct self as [vs cs p]. cbn [vars const_vars parent] in *.
  destruct const.
  - apply get_var_local_const_written;
      [exact Hstd | apply Hc; reflexivity | apply stored_not_None].
  - apply get_var_local_written; [exact Hstd | apply stored_not_None].
Qed.

Lemma get_var_set_var_ne self x y v const :
  x ≠ y → get_var (set_var self y v const) x = get_var self x.
Proof.
  intros Hne. rewrite set_var_stored. destruct self as [vs cs p].
  cbn [vars const_vars parent].
  destruct const; apply get_var_ext; try reflexivity.
  - apply get_var_local_other_const, Hne.
  - apply get_var_local_other_vars, Hne.
Qed.

(** X1.  What is declared is what is looked up: after [set_var] binds an
    identifier that is no built-in type name, as mutable, or as const in a
    scope with no mutable binding of that name, [get_var] on the scope
    returns the value bound, a host value in its wrapper. *)
Theorem declare_then_lookup self identifier value const :
  _STD_TYPES !! identifier = None →
  (const = true → vars self !! identifier = None) →
  get_var (set_var self identifier value const) identifier
  = Ok (stored value) ∧
  ∀ p, stored value ≠ objects.Native p.
Proof.
  intros Hstd Hc. split.
  - apply get_var_set_var_eq; assumption.
  - intros p. destruct value; discriminate.
Qed.

(** X1 on a constant declared in a child scope and on a host integer. *)
Lemma declare_then_lookup_witness :
  get_var (set_var (mkScope ∅ ∅ (Some new_Scope)) "y" (objects.Integer 2) true) "y"
  = Ok (objects.Integer 2) ∧
  get_var (set_var new_Scope "n" (objects.Native (objects.PyInt 7)) false) "n"
  = Ok (objects.ThinPythonObjectWrapper (objects.PyInt 7)).
Proof.
  split.
  - exact (proj1 (declare_then_lookup (mkScope ∅ ∅ (Some new_Scope)) "y"
                    (objects.Integer 2) true eq_refl (λ _, eq_refl))).
  - exact (proj1 (declare_then_lookup new_Scope "n"
                    (objects.Native (objects.PyInt 7)) false eq_refl
                    (λ H, match Bool.diff_false_true H with end))).
Defined.

(** X2.  What a declaration cannot change: under a built-in type name
    [get_var] returns the built-in class whatever is declared, and under a
    name that has a mutable binding in the scope it returns that binding
    whatever is declared const. *)
Theorem lookup_ignores_declaration self identifier value :
  (∀ const t,
     _STD_TYPES !! identifier = Some t →
     get_var (set_var self identifier value const) identifier = Ok t) ∧
  (∀ old,
     _STD_TYPES !! identifier = None →
     vars self !! identifier = Some old → objects.is_None old = false →
     get_var (set_var self identifier value true) identifier = Ok old).
Proof.
  split.
  - intros const t Hstd. apply get_var_found. unfold get_var_local.
    rewrite Hstd. reflexivity.
  - intros old Hstd Hv Hold. apply get_var_found. rewrite set_var_stored.
    unfold get_var_local. rewrite Hstd. cbv zeta. cbn [vars const_vars].
    rewrite (dict_get_Some _ _ _ Hv). rewrite Hold. cbv iota. rewrite Hold.
    reflexivity.
Qed.

(** X2 on a declaration of [Integer] and on [x] declared mutable, then
    const. *)
Lemma lookup_ignores_declaration_witness :
  get_var (set_var new_Scope "Integer" (objects.String "a") false) "Integer"
  = Ok (objects.Native (objects.PyClass objects.CInteger)) ∧
  get_var (set_var (set_var new_Scope "x" (objects.Integer 1) false) "x"
             (objects.Integer 2) true) "x"
  = Ok (objects.Integer 1).
Proof.
  split.
  - exact (proj1 (lookup_ignores_declaration new_Scope "Integer"
                    (objects.String "a")) false _ eq_refl).
  - exact (proj2 (lookup_ignores_declaration
                    (set_var new_Scope "x" (objects.Integer 1) false) "x"
                    (objects.Integer 2)) (objects.Integer 1)
             eq_refl eq_refl eq_refl).
Defined.

Lemma reassign_var_Ok self x v self' :
  reassign_var self x v = Ok self' →
  ∃ old, vars self !! x = Some old ∧
         objects.class_name v = objects.class_name old ∧
         self' = mkScope (<[x := v]> (vars self)) (const_vars self)
                   (parent self).
Proof.
  intros H.
  destruct (reassign_var_cases self x v)
    as [[E _] | [[E _] | (old & Hv & Hc & [[Ht E] | [Ht E]])]];
    rewrite E in H; try discriminate.
  injection H as <-. exists old. repeat split; assumption.
Qed.

(** X3.  A write under one identifier leaves the lookup of every other
    identifier as it was, for a declaration and for a reassignment. *)
Theorem write_leaves_other_identifiers self x y value :
  x ≠ y →
  (∀ const, get_var (set_var self y value const) x = get_var self x) ∧
  (∀ self', reassign_var self y value = Ok self' →
            get_var self' x = get_var self x).
Proof.
  intros Hne. split.
  - intros const. apply get_var_set_var_ne, Hne.
  - intros self' H. destruct (reassign_var_Ok _ _ _ _ H) as (old & _ & _ & ->).
    destruct self as [vs cs p]. cbn [vars const_vars parent].
    apply get_var_ext; [| reflexivity].
    apply get_var_local_other_vars, Hne.
Qed.

(** X3 on [x] and [y] in one scope. *)
Lemma write_leaves_other_identifiers_witness :
  let scope := set_var new_Scope "x" (objects.Integer 1) false in
  get_var (set_var scope "y" (objects.Integer 2) true) "x"
  = Ok (objects.Integer 1).
Proof.
  intros scope.
  rewrite (proj1 (write_leaves_other_identifiers scope "x" "y"
                    (objects.Integer 2) ltac:(discriminate)) true).
  reflexivity.
Defined.

(** X4.  A reassignment that succeeds is seen by the next lookup and keeps
    the type tag of the binding: in a scope whose mutable bindings hold
    values, after [reassign_var] on an identifier that is no built-in type
    name, [get_var] returns the new value, whose type tag is that of the
    value replaced; the const bindings and the parent are as before. *)
Theorem reassign_then_lookup self identifier value self' :
  reassign_var self identifier value = Ok self' →
  _STD_TYPES !! identifier = None → holds_values (vars self) →
  get_var self' identifier = Ok value ∧
  (∃ old, vars self !! identifier = Some old ∧
          objects.class_name value = objects.class_name old) ∧
  const_vars self' = const_vars self ∧ parent self' = parent self.
Proof.
  intros H Hstd Hok.
  destruct (reassign_var_Ok _ _ _ _ H) as (old & Hv & Ht & ->).
  split; [| split; [eauto | split; reflexivity]].
  apply get_var_found, get_var_local_written; [exact Hstd |].
  destruct (objects.is_None value) eqn:En; [| reflexivity].
  apply is_None_class_name in En. rewrite Ht in En.
  apply class_name_None in En. rewrite (Hok _ _ Hv) in En. discriminate.
Qed.

(** X4 on [x = 1] reassigned with 2. *)
Lemma reassign_then_lookup_witness :
  let scope := set_var new_Scope "x" (objects.Integer 1) false in
  ∃ scope', reassign_var scope "x" (objects.Integer 2) = Ok scope' ∧
            get_var scope' "x" = Ok (objects.Integer 2).
Proof.
  intros scope. eexists. split; [reflexivity |].
  refine (proj1 (reassign_then_lookup scope "x" (objects.Integer 2) _
                   eq_refl eq_refl _)).
  apply (stored_ok_set_var new_Scope "x" (objects.Integer 1) false
           stored_ok_new).
Defined.

Lemma lookup_Ok_assigned self x v :
  lookup self x = Ok v → is_var_assigned self x true = true.
Proof.
  induction self as [vs cs | vs cs p IH] using Scope_chain_ind;
    cbn [lookup is_var_assigned vars const_vars parent];
    destruct (_STD_TYPES !! x) as [t |] eqn:Hstd;
    try (intros _; rewrite (proj2 (dict_in_true x _STD_TYPES))
           by (rewrite Hstd; eauto);
         rewrite ?orb_true_r; reflexivity);
    destruct (vs !! x) as [a |] eqn:Hv;
    try (intros _; rewrite (proj2 (dict_in_true x vs)) by (rewrite Hv; eauto);
         reflexivity);
    destruct (cs !! x) as [b |] eqn:Hc;
    try (intros _; rewrite (proj2 (dict_in_true x cs)) by (rewrite Hc; eauto);
         rewrite ?orb_true_r; reflexivity).
  - discriminate.
  - intros H. rewrite (IH H). rewrite ?orb_true_r. reflexivity.
Qed.

(** X5.  On scopes whose bindings hold values, [is_var_assigned] with
    recursion and [get_var] agree: an identifier is reported as assigned
    exactly if its lookup succeeds. *)
Theorem assigned_iff_lookup_succeeds self identifier :
  stored_ok self →
  is_var_assigned self identifier true = true
  ↔ ∃ value, get_var self identifier = Ok value.
Proof.
  intros Hok. rewrite get_var_is_lookup by exact Hok. split.
  - intros Ha. destruct (lookup self identifier) as [v | e |] eqn:E.
    + eauto.
    + destruct (is_var_assigned self identifier true) eqn:Ea;
        [| discriminate].
      exfalso. clear Ha.
      assert (Hn : lookup self identifier = Raise (VarNotFound identifier)
                   → False).
      { clear E. revert Ea.
        induction self as [vs cs | vs cs p IH] using Scope_chain_ind;
          cbn [lookup is_var_assigned vars const_vars parent];
          intros Ea;
          destruct (_STD_TYPES !! identifier) eqn:Hstd; try discriminate;
          destruct (vs !! identifier) eqn:Hv; try discriminate;
          destruct (cs !! identifier) eqn:Hc; try discriminate;
          rewrite (proj2 (dict_in_false identifier vs) Hv),
                  (proj2 (dict_in_false identifier cs) Hc),
                  (proj2 (dict_in_false identifier _STD_TYPES) Hstd) in Ea;
          cbn in Ea; try discriminate.
        destruct Hok as (_ & _ & Hp). apply IH; assumption. }
      apply Hn. rewrite E. f_equal.
      clear -E. revert E.
      induction self as [vs cs | vs cs p IH] using Scope_chain_ind;
        cbn [lookup vars const_vars parent];
        destruct (_STD_TYPES !! identifier); try discriminate;
        destruct (vs !! identifier); try discriminate;
        destruct (cs !! identifier); try discriminate.
      * intros H. injection H as <-. reflexivity.
      * exact IH.
    + exfalso. clear -E. revert E.
      induction self as [vs cs | vs cs p IH] using Scope_chain_ind;
        cbn [lookup vars const_vars parent];
        destruct (_STD_TYPES !! identifier); try discriminate;
        destruct (vs !! identifier); try discriminate;
        destruct (cs !! identifier); try discriminate.
      exact IH.
  - intros [v Hv]. eapply lookup_Ok_assigned, Hv.
Qed.

(** X5 on a scope under the global scope. *)
Lemma assigned_iff_lookup_succeeds_witness :
  let scope :=
    mkScope ∅ ∅ (Some (set_var new_Scope "x" (objects.Integer 1) true)) in
  is_var_assigned scope "x" true = true
  ↔ ∃ value, get_var scope "x" = Ok value.
Proof.
  intros scope. apply (assigned_iff_lookup_succeeds scope "x").
  apply stored_ok_child, stored_ok_set_var, stored_ok_new.
Defined.

(** ** Assignment statements *)

(** X6.  A reassignment of an identifier that is visible, but bound
    neither mutable nor const in the current scope (it is bound in an outer
    scope, or it is a built-in type name), fails: [reassign_var] does not
    walk the chain, its dictionary access raises [KeyError], and the
    statement ends in a [StatementError] with that message, nothing
    written. *)
Theorem reassignment_of_outer_binding call stmt g c x t e r r1 v :
  eval call e r = (r1, Ok v) →
  vars (get_current_scope r1) !! x = None →
  const_vars (get_current_scope r1) !! x = None →
  is_var_assigned (get_current_scope r1) x true = true →
  reassign_var (get_current_scope r1) x v = Raise (KeyError x) ∧
  _exec_assignment call stmt true g c x t e r
  = (r1, Raise (StatementError stmt (MsgKeyError x))).
Proof.
  intros He Hv Hc Ha.
  assert (E : reassign_var (get_current_scope r1) x v = Raise (KeyError x)).
  { apply reassign_var_missing; [apply dict_in_false |]; assumption. }
  split; [exact E |].
  rewrite (exec_reassignment _ _ _ _ _ _ _ _ _ _ He), Ha, E. reflexivity.
Qed.

(** X6 on [x] bound in the global scope and reassigned one scope below. *)
Lemma reassignment_of_outer_binding_witness :
  let scope :=
    mkScope ∅ ∅ (Some (set_var new_Scope "x" (objects.Integer 1) false)) in
  get_var scope "x" = Ok (objects.Integer 1) ∧
  _exec_assignment (call 0) (stmt_reassign_x (objects.Integer 2)) true
    false false "x" None (ast.Primitive (objects.Integer 2))
    (runner_with scope)
  = (runner_with scope,
     Raise (StatementError (stmt_reassign_x (objects.Integer 2))
              (MsgKeyError "x"))).
Proof.
  intros scope. split; [reflexivity |].
  exact (proj2 (reassignment_of_outer_binding (call 0)
                  (stmt_reassign_x (objects.Integer 2)) false false "x" None
                  (ast.Primitive (objects.Integer 2)) (runner_with scope)
                  (runner_with scope) (objects.Integer 2)
                  eq_refl eq_refl eq_refl eq_refl)).
Defined.

(** X7.  A declaration with a type annotation, in the current scope: when
    the type tag of the value is the annotation, the value is bound and is
    what the identifier (no built-in type name, and with no mutable
    binding in the scope if declared const) looks up to next; otherwise
    the mismatch error leaves [_exec_assignment] as raised, not as a
    [StatementError], and the runner is as the evaluation left it. *)
Theorem typed_declaration call stmt c x t e r r1 v :
  eval call e r = (r1, Ok v) →
  let out := _exec_assignment call stmt false false c x (Some t) e r in
  (objects.class_name v = t →
     snd out = Ok tt ∧
     heap (fst out) = heap r1 ∧
     (_STD_TYPES !! x = None →
      (c = true → vars (get_current_scope r1) !! x = None) →
      get_var (get_current_scope (fst out)) x = Ok (stored v))) ∧
  (objects.class_name v ≠ t →
     out = (r1, Raise (TypeMismatchError t v))).
Proof.
  intros He out. subst out.
  rewrite (exec_declaration _ _ _ _ _ _ _ _ _ _ He). split; intros Ht.
  - rewrite (type_check_same _ _ Ht). repeat split.
    cbn [fst with_scope get_current_scope active_scope].
    apply get_var_set_var_eq.
  - rewrite (type_check_differs _ _ Ht). reflexivity.
Qed.

(** X7 on [const x: Integer = 1] and on [x: Integer = "a"]. *)
Lemma typed_declaration_witness :
  let exec c v :=
    _exec_assignment (call 0)
      (ast.Assignment 1 false c "x" (Some "Integer") (ast.Primitive v))
      false false c "x" (Some "Integer") (ast.Primitive v) new_Runner in
  get_var (get_current_scope (fst (exec true (objects.Integer 1)))) "x"
  = Ok (objects.Integer 1) ∧
  exec false (objects.String "a")
  = (new_Runner, Raise (TypeMismatchError "Integer" (objects.String "a"))).
Proof.
  intros exec. split.
  - refine (proj2 (proj2 (proj1 (typed_declaration (call 0) _ true "x"
             "Integer" (ast.Primitive (objects.Integer 1)) new_Runner
             new_Runner (objects.Integer 1) eq_refl) eq_refl)) eq_refl _).
    reflexivity.
  - refine (proj2 (typed_declaration (call 0) _ false "x"
             "Integer" (ast.Primitive (objects.String "a")) new_Runner
             new_Runner (objects.String "a") eq_refl) _).
    discriminate.
Defined.

Lemma root_update_root f s :
  (∀ s, parent (f s) = parent s) → root (update_root f s) = f (root s).
Proof.
  intros Hf. induction s as [vs cs | vs cs p IH] using Scope_chain_ind.
  - cbn [update_root root parent].
    destruct (f (mkScope vs cs None)) as [vs' cs' p'] eqn:E.
    pose proof (Hf (mkScope vs cs None)) as Hp. rewrite E in Hp.
    cbn [parent] in Hp. subst p'. reflexivity.
  - cbn [update_root root parent]. exact IH.
Qed.

Lemma same_locals_refl s : same_locals s s.
Proof.
  induction s as [vs cs | vs cs p IH] using Scope_chain_ind;
    cbn [same_locals parent vars const_vars]; auto.
Qed.

Lemma same_locals_update_root f s :
  (∀ s, parent (f s) = parent s) → same_locals s (update_root f s).
Proof.
  intros Hf. induction s as [vs cs | vs cs p IH] using Scope_chain_ind.
  - cbn [update_root parent]. unfold same_locals.
    rewrite Hf. destruct (f _); reflexivity.
  - cbn [update_root same_locals parent vars const_vars]. auto.
Qed.

(** X8.  A declaration marked global is written to the global scope, from
    whatever depth it is executed: the global scope afterwards is the one
    before with the value set, and every scope of the chain below the
    global one has the bindings it had. *)
Theorem global_declaration call stmt c x typ e r r1 v :
  eval call e r = (r1, Ok v) →
  (∀ t, typ = Some t → objects.class_name v = t) →
  ∃ r2,
    _exec_assignment call stmt false true c x typ e r = (r2, Ok tt) ∧
    global_scope r2 = set_var (global_scope r1) x v c ∧
    same_locals (active_scope r1) (active_scope r2) ∧
    heap r2 = heap r1.
Proof.
  intros He Ht. rewrite (exec_declaration _ _ _ _ _ _ _ _ _ _ He).
  assert (E : match typ with Some t => type_check t v | None => Ok tt end
              = Ok tt).
  { destruct typ as [t |]; [apply type_check_same; auto | reflexivity]. }
  rewrite E. eexists. split; [reflexivity |].
  unfold global_scope. cbn [with_scope active_scope heap].
  split; [| split; [| reflexivity]].
  - apply (root_update_root (λ scope, set_var scope x v c)).
    intros s. destruct c; reflexivity.
  - apply (same_locals_update_root (λ scope, set_var scope x v c)).
    intros s. destruct c; reflexivity.
Qed.

(** X8 on [global g = 1] executed two scopes below the global scope, where
    [y] is bound. *)
Lemma global_declaration_witness :
  let inner :=
    set_var (mkScope ∅ ∅ (Some (mkScope ∅ ∅ (Some new_Scope)))) "y"
      (objects.Integer 0) false in
  let stmt :=
    ast.Assignment 1 true false "g" None (ast.Primitive (objects.Integer 1)) in
  ∃ r2,
    _exec_assignment (call 0) stmt false true false "g" None
      (ast.Primitive (objects.Integer 1)) (runner_with inner) = (r2, Ok tt) ∧
    global_scope r2 = set_var new_Scope "g" (objects.Integer 1) false ∧
    same_locals inner (active_scope r2).
Proof.
  intros inner stmt.
  destruct (global_declaration (call 0) stmt false "g" None
              (ast.Primitive (objects.Integer 1)) (runner_with inner)
              (runner_with inner) (objects.Integer 1) eq_refl)
    as (r2 & H1 & H2 & H3 & _).
  - discriminate.
  - exists r2. repeat split; assumption.
Defined.

(** ** Statement lists *)

Lemma exec_body_loop_flag_set step body func r fo :
  heap r !! func = Some fo → _return_flag fo = true →
  exec_body_loop step body func r = (r, Ok tt).
Proof.
  intros Hf Hflag. destruct body as [| statement rest]; [reflexivity |].
  cbn [exec_body_loop]. rewrite (bind_Ok _ _ r r fo) by (apply get_func_eq, Hf).
  rewrite Hflag. reflexivity.
Qed.

Lemma bind_assoc {A B C} (m : M A) (k : A → M B) (h : B → M C) r :
  bind (bind m k) h r = bind m (λ a, bind (k a) h) r.
Proof. unfold bind. destruct (m r) as [r' [a | e |]]; reflexivity. Qed.

Lemma bind_ext {A B} (m : M A) (k k' : A → M B) r :
  (∀ a r', k a r' = k' a r') → bind m k r = bind m k' r.
Proof.
  intros H. unfold bind. destruct (m r) as [r' [a | e |]];
    [apply H | reflexivity | reflexivity].
Qed.

Lemma exec_body_loop_app step l1 l2 func r :
  exec_body_loop step (l1 ++ l2) func r
  = bind (exec_body_loop step l1 func) (λ _, exec_body_loop step l2 func) r.
Proof.
  revert r. induction l1 as [| statement rest IH]; intros r; [reflexivity |].
  cbn [app exec_body_loop]. rewrite bind_assoc.
  destruct (heap r !! func) as [fo |] eqn:Hf.
  - rewrite !(bind_Ok _ _ r r fo) by (apply get_func_eq, Hf).
    destruct (_return_flag fo) eqn:Hflag.
    + symmetry. cbn [bind ret].
      eapply exec_body_loop_flag_set; eassumption.
    + rewrite bind_assoc.
      rewrite !(bind_Ok _ _ r (next_line r) tt) by reflexivity.
      rewrite bind_assoc. apply bind_ext. intros _ r'. apply IH.
  - unfold bind, get_func. rewrite Hf. reflexivity.
Qed.

Lemma exec_module_body_app call modules open_run l1 l2 r :
  exec_module_body call modules open_run (l1 ++ l2) r
  = bind (exec_module_body call modules open_run l1)
      (λ _, exec_module_body call modules open_run l2) r.
Proof.
  revert r. induction l1 as [| statement rest IH]; intros r; [reflexivity |].
  cbn [app exec_module_body]. rewrite bind_assoc. apply bind_ext.
  intros _ r'. apply IH.
Qed.

(** X9.  Statement lists compose: running the concatenation of two lists
    is running the first and then, unless it raised, the second.  For a
    function body this holds although the loop stops at a return: the
    second list then finds the return flag set and leaves at once. *)
Theorem bodies_compose call modules open_run l1 l2 :
  (∀ func r,
     exec_function_body call (l1 ++ l2) func r
     = bind (exec_function_body call l1 func)
         (λ _, exec_function_body call l2 func) r) ∧
  (∀ r,
     exec_module_body call modules open_run (l1 ++ l2) r
     = bind (exec_module_body call modules open_run l1)
         (λ _, exec_module_body call modules open_run l2) r).
Proof.
  split.
  - intros func r. apply exec_body_loop_app.
  - intros r. apply exec_module_body_app.
Qed.

Lemma set_func_sets {A} (m : M A) func f r r' :
  bind m (λ _, set_func func f) r = (r', Ok tt) →
  ∃ fo, heap r' !! func = Some (f fo).
Proof.
  unfold bind. destruct (m r) as [r1 [a | e |]]; try discriminate.
  unfold set_func. destruct (heap r1 !! func) as [fo |] eqn:Hf;
    [| discriminate].
  intros H. injection H as <-. exists fo. cbn [heap].
  rewrite list_lookup_insert_eq; [reflexivity |].
  eapply lookup_lt_Some, Hf.
Qed.

(** X10.  What follows a [return] in a statement list is not executed:
    the body runs as if it ended at the return, whether the return
    completes or raises. *)
Theorem statements_after_return_skipped call line expr rest func r :
  exec_function_body call (ast.Return line expr :: rest) func r
  = exec_function_body call [ast.Return line expr] func r.
Proof.
  unfold exec_function_body. cbn [exec_body_loop].
  destruct (heap r !! func) as [fo |] eqn:Hf.
  - rewrite !(bind_Ok _ _ r r fo) by (apply get_func_eq, Hf).
    destruct (_return_flag fo); [reflexivity |].
    rewrite !(bind_Ok _ _ r (next_line r) tt) by reflexivity.
    cbn [exec_function_statement].
    destruct (bind (_exec_return call expr func)
                (λ _, set_func func (set_return_flag true)) (next_line r))
      as [r1 [[] | e |]] eqn:E.
    + rewrite !(bind_Ok _ _ _ _ _ E). cbn [ret].
      destruct (set_func_sets _ _ _ _ _ E) as [fo1 Hf1].
      eapply exec_body_loop_flag_set; [exact Hf1 | reflexivity].
    + rewrite !(bind_Raise _ _ _ _ _ E). reflexivity.
    + rewrite !(bind_OutOfFuel _ _ _ _ E). reflexivity.
  - unfold bind, get_func. rewrite Hf. reflexivity.
Qed.

(** X11.  A [return] without expression never completes: the name [Void]
    it builds its value from is not defined in the module, so the body
    ends in the [NameError] at that statement, with no return recorded on
    the function object. *)
Theorem bare_return_raises call line rest func r fo :
  heap r !! func = Some fo → _return_flag fo = false →
  exec_function_body call (ast.Return line None :: rest) func r
  = (next_line r, Raise (NameError "Void")).
Proof.
  intros Hf Hflag. unfold exec_function_body.
  rewrite (exec_body_loop_next _ _ _ _ _ _ Hf Hflag). reflexivity.
Qed.

(** X11 on a body of [return] and a second statement. *)
Lemma bare_return_raises_witness :
  let r := mkRunner new_Scope [fresh_function []] 0 in
  exec_function_body (call 0) [ast.Return 1 None; return_string] 0 r
  = (next_line r, Raise (NameError "Void")).
Proof.
  intros r.
  exact (bare_return_raises (call 0) 1 [return_string] 0 r (fresh_function [])
           eq_refl eq_refl).
Defined.

(** ** What a call leaves of the caller's scopes *)

Lemma same_locals_trans s1 s2 s3 :
  same_locals s1 s2 → same_locals s2 s3 → same_locals s1 s3.
Proof.
  revert s2 s3. induction s1 as [vs cs | vs cs p IH] using Scope_chain_ind;
    intros [vs2 cs2 [p2 |]] [vs3 cs3 [p3 |]];
    cbn [same_locals parent vars const_vars]; try tauto.
  intros (E1 & E2 & H12) (E3 & E4 & H23).
  repeat split; [congruence | congruence | eauto].
Qed.

Lemma same_locals_outer s s' : same_locals s s' → same_outer s s'.
Proof.
  destruct s as [vs cs [p |]], s' as [vs' cs' [p' |]];
    unfold same_outer; cbn [same_locals parent]; tauto.
Qed.

Lemma same_outer_parent s s' : parent s = parent s' → same_outer s s'.
Proof.
  unfold same_outer. intros <-.
  destruct (parent s); [apply same_locals_refl | exact I].
Qed.

Lemma same_outer_trans s1 s2 s3 :
  same_outer s1 s2 → same_outer s2 s3 → same_outer s1 s3.
Proof.
  unfold same_outer.
  destruct (parent s1), (parent s2), (parent s3); try tauto.
  apply same_locals_trans.
Qed.

Lemma same_outer_update_root f s :
  (∀ s, parent (f s) = parent s) → same_outer s (update_root f s).
Proof. intros Hf. apply same_locals_outer, same_locals_update_root, Hf. Qed.

Lemma parent_set_var s x v c : parent (set_var s x v c) = parent s.
Proof. destruct c; reflexivity. Qed.

Lemma parent_bind_params params args s :
  parent (bind_params params args s) = parent s.
Proof.
  revert args s. induction params as [| param params IH];
    intros [| arg args] s; cbn [bind_params]; try reflexivity.
  rewrite IH. apply parent_set_var.
Qed.

Lemma isolated_local_effect {A} (m : M A) : isolated m → local_effect m.
Proof. intros Hm r r' out H. apply same_locals_outer, (Hm _ _ _ H). Qed.

Lemma isolated_pure {A} (m : M A) :
  (∀ r, active_scope (fst (m r)) = active_scope r) → isolated m.
Proof.
  intros Hm r r' out H. specialize (Hm r). rewrite H in Hm. cbn in Hm.
  rewrite Hm. apply same_locals_refl.
Qed.

Lemma isolated_ret {A} (a : A) : isolated (ret a).
Proof. apply isolated_pure. reflexivity. Qed.

Lemma isolated_raise {A} e : isolated (@raise A e).
Proof. apply isolated_pure. reflexivity. Qed.

Lemma isolated_lift {A} (x : Res A) : isolated (lift x).
Proof. apply isolated_pure. reflexivity. Qed.

Lemma isolated_get_func func : isolated (get_func func).
Proof.
  apply isolated_pure. intros r. unfold get_func.
  destruct (heap r !! func); reflexivity.
Qed.

Lemma isolated_set_func func f : isolated (set_func func f).
Proof.
  apply isolated_pure. intros r. unfold set_func.
  destruct (heap r !! func); reflexivity.
Qed.

Lemma isolated_bind {A B} (m : M A) (k : A → M B) :
  isolated m → (∀ a, isolated (k a)) → isolated (bind m k).
Proof.
  intros Hm Hk r r' out. unfold bind.
  destruct (m r) as [r1 [a | e |]] eqn:E; intros H.
  - eapply same_locals_trans; [eapply Hm, E | eapply Hk, H].
  - injection H as <- _. eapply Hm, E.
  - injection H as <- _. eapply Hm, E.
Qed.

Lemma local_effect_bind {A B} (m : M A) (k : A → M B) :
  local_effect m → (∀ a, local_effect (k a)) → local_effect (bind m k).
Proof.
  intros Hm Hk r r' out. unfold bind.
  destruct (m r) as [r1 [a | e |]] eqn:E; intros H.
  - eapply same_outer_trans; [eapply Hm, E | eapply Hk, H].
  - injection H as <- _. eapply Hm, E.
  - injection H as <- _. eapply Hm, E.
Qed.

Lemma isolated_try_except {A} (m : M A) h :
  isolated m → (∀ e, isolated (h e)) → isolated (try_except m h).
Proof.
  intros Hm Hh r r' out. unfold try_except.
  destruct (m r) as [r1 [a | e |]] eqn:E; intros H.
  - injection H as <- _. eapply Hm, E.
  - destruct (is_Exception e).
    + eapply same_locals_trans; [eapply Hm, E | eapply Hh, H].
    + injection H as <- _. eapply Hm, E.
  - injection H as <- _. eapply Hm, E.
Qed.

Lemma local_effect_try_except {A} (m : M A) h :
  local_effect m → (∀ e, local_effect (h e)) → local_effect (try_except m h).
Proof.
  intros Hm Hh r r' out. unfold try_except.
  destruct (m r) as [r1 [a | e |]] eqn:E; intros H.
  - injection H as <- _. eapply Hm, E.
  - destruct (is_Exception e).
    + eapply same_outer_trans; [eapply Hm, E | eapply Hh, H].
    + injection H as <- _. eapply Hm, E.
  - injection H as <- _. eapply Hm, E.
Qed.

Lemma local_effect_with_runner {A} (k : Runner → M A) :
  (∀ r r' out, k r r = (r', out) →
     same_outer (active_scope r) (active_scope r')) →
  local_effect (bind get_runner k).
Proof. intros Hk r r' out H. exact (Hk r r' out H). Qed.

Lemma local_effect_modify_scope (g : Scope → Scope) :
  (∀ s, parent (g s) = parent s) →
  local_effect (bind get_runner
                  (λ self, set_scope (g (get_current_scope self)))).
Proof.
  intros Hg r r' out H.
  cbv [bind get_runner set_scope get_current_scope] in H.
  injection H as <- _. cbn [active_scope]. apply same_outer_parent.
  symmetry. apply Hg.
Qed.

(** The scope pushed for a body is dropped with whatever the body bound
    in it. *)
Lemma isolated_new_scope {A} (body : M A) :
  local_effect body → isolated (new_scope body).
Proof.
  intros Hb r r' out. unfold new_scope.
  destruct (body _) as [r1 out1] eqn:E. intros H. injection H as <- _.
  apply Hb in E. unfold same_outer in E. cbn [active_scope parent] in *.
  destruct (parent (active_scope r1)) as [p |]; [| contradiction].
  exact E.
Qed.

Section Isolation.

Variable call : nat → list Value → M Value.
Hypothesis isolated_call : ∀ func args, isolated (call func args).

Lemma isolated_operate op l r : isolated (operate op l r).
Proof.
  unfold operate. destruct l; try apply isolated_raise.
  destruct r; try apply isolated_raise. apply isolated_ret.
Qed.

Lemma isolated_eval_args ev args :
  Forall (λ e, isolated (ev e)) args → isolated (eval_args ev args).
Proof.
  induction 1 as [| e args He _ IH]; cbn [eval_args].
  - apply isolated_ret.
  - apply isolated_bind; [exact He |]. intros v.
    apply isolated_bind; [exact IH |]. intros vs. apply isolated_ret.
Qed.

(** Evaluation binds nothing in the scopes of the chain below the global
    one. *)
Lemma isolated_eval e : isolated (eval call e).
Proof.
  induction e as [value | name | name args IH | op lhs rhs IHl IHr]
    using Expr_nested_ind; cbn [eval].
  - apply isolated_ret.
  - apply isolated_bind; [apply isolated_pure; reflexivity |]. intros self.
    apply isolated_lift.
  - apply isolated_bind; [apply isolated_pure; reflexivity |]. intros self.
    apply isolated_bind; [apply isolated_lift |]. intros f.
    apply isolated_bind; [apply isolated_eval_args, IH |]. intros argv.
    destruct f; try apply isolated_raise. apply isolated_call.
  - apply isolated_bind; [exact IHl |]. intros l.
    apply isolated_bind; [exact IHr |]. intros r. apply isolated_operate.
Qed.

Lemma local_effect_exec_assignment statement reassign g c x t e :
  local_effect (_exec_assignment call statement reassign g c x t e).
Proof.
  unfold _exec_assignment. apply local_effect_bind.
  { apply isolated_local_effect, isolated_try_except; [apply isolated_eval |].
    intros e'. apply isolated_raise. }
  intros v. apply local_effect_with_runner. intros r r' out.
  destruct reassign.
  - destruct (negb _);
      [intros H; injection H as <- _; apply same_outer_parent; reflexivity |].
    unfold try_except, bind, lift, set_scope, raise.
    destruct (reassign_var _ x v) as [scope' | e' |] eqn:E; intros H.
    + injection H as <- _. cbn [active_scope].
      destruct (reassign_var_Ok _ _ _ _ E) as (old & _ & _ & ->).
      apply same_outer_parent. reflexivity.
    + destruct (is_Exception e'); injection H as <- _;
        apply same_outer_parent; reflexivity.
    + injection H as <- _. apply same_outer_parent. reflexivity.
  - unfold bind, lift, set_global, set_scope, ret.
    destruct t as [t |]; [destruct (type_check t v) |];
      destruct g; intros H; injection H as <- _; cbn [active_scope];
      first [ apply same_outer_parent; reflexivity
            | apply (same_outer_update_root (λ scope, set_var scope x v c));
              intros s; apply parent_set_var
            | apply same_outer_parent; symmetry; apply parent_set_var ].
Qed.

Lemma isolated_exec_return expr func : isolated (_exec_return call expr func).
Proof.
  unfold _exec_return, infer_return_type. apply isolated_bind.
  { destruct expr; [apply isolated_eval | apply isolated_raise]. }
  intros ret0. apply isolated_bind.
  { apply isolated_bind; [apply isolated_get_func |]. intros fo.
    destruct (return_type fo); [apply isolated_ret |].
    apply isolated_bind.
    - destruct (objects.is_Object ret0); [apply isolated_ret |].
      apply isolated_pure. intros r. rewrite wrap_py_type_raises. reflexivity.
    - intros ret1. apply isolated_bind; [apply isolated_set_func |].
      intros _. apply isolated_ret. }
  intros ret1. apply isolated_bind; [apply isolated_get_func |]. intros fo.
  apply isolated_bind.
  { destruct (return_type fo); [apply isolated_lift | apply isolated_raise]. }
  intros _. apply isolated_set_func.
Qed.

Lemma local_effect_exec_body_loop step body func :
  Forall (λ statement, local_effect (step statement func)) body →
  local_effect (exec_body_loop step body func).
Proof.
  induction 1 as [| statement rest Hs _ IH]; cbn [exec_body_loop].
  - apply isolated_local_effect, isolated_ret.
  - apply local_effect_bind;
      [apply isolated_local_effect, isolated_get_func |]. intros fo.
    destruct (_return_flag fo); [apply isolated_local_effect, isolated_ret |].
    apply local_effect_bind;
      [apply isolated_local_effect, isolated_pure; reflexivity |]. intros _.
    apply local_effect_bind; [exact Hs |]. intros _. exact IH.
Qed.

Lemma local_effect_exec_function_statement statement func :
  local_effect (exec_function_statement call statement func).
Proof.
  induction statement
    as [line condition body IH | line name params body _ | line form importing
        | line g c x t e | line x e | line e | line e]
    using Stmt_nested_ind; cbn [exec_function_statement];
    try apply isolated_local_effect, isolated_raise.
  - apply local_effect_bind; [apply isolated_local_effect, isolated_eval |].
    intros c.
    destruct c; try apply isolated_local_effect, isolated_raise.
    destruct b; [| apply isolated_local_effect, isolated_ret].
    apply local_effect_exec_body_loop. exact IH.
  - apply local_effect_exec_assignment.
  - apply local_effect_exec_assignment.
  - apply isolated_local_effect, isolated_bind; [apply isolated_exec_return |].
    intros _. apply isolated_set_func.
  - destruct e; try apply isolated_local_effect, isolated_raise.
    apply isolated_local_effect, isolated_bind;
      [apply (isolated_eval (ast.FunctionCall _ _)) |].
    intros _. apply isolated_ret.
Qed.

Lemma local_effect_exec_function_body body func :
  local_effect (exec_function_body call body func).
Proof.
  apply local_effect_exec_body_loop, Forall_forall. intros statement _.
  apply local_effect_exec_function_statement.
Qed.

Lemma local_effect_import_names fetch names :
  (∀ name, local_effect (fetch name)) →
  local_effect (import_names fetch names).
Proof.
  intros Hf. induction names as [| name rest IH]; cbn [import_names].
  - apply isolated_local_effect, isolated_ret.
  - apply local_effect_bind; [apply Hf |]. intros var.
    apply local_effect_with_runner. intros r r' out H.
    unfold bind, set_scope in H.
    eapply same_outer_trans; [| eapply IH, H].
    cbn [active_scope]. apply same_outer_parent. symmetry.
    apply parent_set_var.
Qed.

Lemma local_effect_exec_module_body modules open_run stmt_list :
  local_effect (exec_module_body call modules open_run stmt_list).
Proof.
  induction stmt_list as [| statement rest IH]; cbn [exec_module_body];
    [apply isolated_local_effect, isolated_ret |].
  apply local_effect_bind; [| intros _; exact IH].
  apply local_effect_try_except;
    [| intros e; destruct e; apply isolated_local_effect, isolated_raise].
  destruct statement; cbn [exec_module_statement];
    try apply isolated_local_effect, isolated_raise.
  - unfold _exec_import.
    assert (Hstd : local_effect
                     (_exec_std_import modules
                        (ast.Import lineno0 from_module importing)
                        from_module importing)).
    { unfold _exec_std_import. destruct (modules !! _) as [module |];
        [| apply isolated_local_effect, isolated_raise].
      apply local_effect_import_names. intros iport. unfold std_fetch.
      apply isolated_local_effect.
      destruct (module !! iport); [apply isolated_ret | apply isolated_raise]. }
    destruct from_module as [base attr | base];
      destruct (decide (base = "std")); try exact Hstd;
      [apply isolated_local_effect, isolated_ret |].
    unfold _exec_local_import. apply local_effect_bind.
    + apply isolated_local_effect.
      destruct (open_run _) as [new | e |]; try apply isolated_lift.
      destruct e; first [apply isolated_raise | apply isolated_lift].
    + intros new. apply local_effect_import_names. intros iport.
      apply isolated_local_effect, isolated_try_except;
        [| intros e; apply isolated_raise].
      destruct new; [apply isolated_lift | apply isolated_raise].
  - apply local_effect_exec_assignment.
  - apply local_effect_exec_assignment.
  - unfold _exec_function_spawn.
    apply local_effect_bind;
      [apply isolated_local_effect, isolated_pure; reflexivity |]. intros f.
    apply (local_effect_modify_scope (λ s, set_var s name f false)).
    intros s. apply parent_set_var.
Qed.

End Isolation.

Lemma isolated_call_function exec func args :
  (∀ body f, local_effect (exec body f)) →
  isolated (call_function exec func args).
Proof.
  intros Hexec. unfold call_function.
  apply isolated_bind; [apply isolated_get_func |]. intros fo.
  apply isolated_bind.
  { apply isolated_new_scope.
    apply local_effect_with_runner. intros r r' out H.
    unfold bind at 1 in H. unfold set_scope at 1 in H.
    eapply same_outer_trans;
      [| eapply (local_effect_bind (set_func func clear_frame)
                   (λ _, exec (fn_body fo) func));
         [apply isolated_local_effect, isolated_set_func
         | intros _; apply Hexec | exact H]].
    cbn [active_scope]. apply same_outer_parent. symmetry.
    apply parent_bind_params. }
  intros _. apply isolated_bind; [apply isolated_get_func |]. intros fo'.
  apply isolated_bind; [apply isolated_set_func |]. intros _.
  apply isolated_ret.
Qed.

Lemma isolated_call fuel func args : isolated (call fuel func args).
Proof.
  revert func args. induction fuel as [| fuel IH]; intros func args;
    cbn [call].
  - apply isolated_pure. reflexivity.
  - apply isolated_call_function. intros body f.
    apply local_effect_exec_function_body. exact IH.
Qed.

(** X12.  A call leaves the scopes of its caller as they were, but for
    the global scope: whatever the outcome, the chain of scopes is as long
    as before the call and every scope below the global one has the
    bindings it had.  So does the evaluation of any expression; and the
    statements of a function body, like those of a module body, bind
    nothing further out than the scope they run in, but for the global
    scope. *)
Theorem call_leaves_callers_scopes fuel :
  (∀ func args r r' out,
     call fuel func args r = (r', out) →
     same_locals (active_scope r) (active_scope r')) ∧
  (∀ e r r' out,
     eval (call fuel) e r = (r', out) →
     same_locals (active_scope r) (active_scope r')) ∧
  (∀ body func r r' out,
     exec_function_body (call fuel) body func r = (r', out) →
     same_outer (active_scope r) (active_scope r')) ∧
  (∀ modules open_run stmt_list r r' out,
     exec_module_body (call fuel) modules open_run stmt_list r = (r', out) →
     same_outer (active_scope r) (active_scope r')).
Proof.
  split; [| split; [| split]].
  - intros func args. apply isolated_call.
  - intros e. apply isolated_eval. apply isolated_call.
  - intros body func. apply local_effect_exec_function_body.
    apply isolated_call.
  - intros modules open_run stmt_list. apply local_effect_exec_module_body.
    apply isolated_call.
Qed.

(** X12 on the call [g(False)] made one scope below the global scope,
    where [y] is bound. *)
Lemma call_leaves_callers_scopes_witness :
  let caller :=
    set_var (mkScope ∅ ∅ (Some (active_scope runner_g))) "y"
      (objects.Integer 0) false in
  let r := mkRunner caller (heap runner_g) 0 in
  snd (call 1 0 [objects.Boolean false] r) = Ok (objects.Integer 1) ∧
  same_locals caller (active_scope (fst (call 1 0 [objects.Boolean false] r))).
Proof.
  intros caller r. split; [reflexivity |].
  apply (proj1 (call_leaves_callers_scopes 1) 0 [objects.Boolean false] r _
           (snd (call 1 0 [objects.Boolean false] r))).
  apply surjective_pairing.
Defined.

(** ** Imports, further *)

(** X13.  An import from a dotted module path that does not start at
    [std] is skipped: [_exec_import] falls through both of its branches,
    so the statement binds nothing and raises nothing, whatever it
    names. *)
Theorem dotted_import_skipped call modules open_run line name attr importing
    rest r :
  name ≠ "std" →
  _exec_import modules open_run
    (ast.Import line (ast.Attribute name attr) importing)
    (ast.Attribute name attr) importing r = (r, Ok tt) ∧
  exec_module_body call modules open_run
    (ast.Import line (ast.Attribute name attr) importing :: rest) r
  = exec_module_body call modules open_run rest r.
Proof.
  intros Hname.
  assert (E : _exec_import modules open_run
                (ast.Import line (ast.Attribute name attr) importing)
                (ast.Attribute name attr) importing r = (r, Ok tt)).
  { unfold _exec_import. destruct (decide (name = "std")); [contradiction |].
    reflexivity. }
  split; [exact E |].
  cbn [exec_module_body exec_module_statement].
  rewrite (bind_Ok _ _ r r tt) by (apply try_except_Ok; exact E).
  reflexivity.
Qed.

(** X13 on [from lib.tools import x] with no such module anywhere. *)
Lemma dotted_import_skipped_witness :
  exec_module_body (call 0) ∅ (λ path, Raise (FileNotFoundError path))
    [ast.Import 1 (ast.Attribute "lib" "tools") ["x"]] new_Runner
  = (new_Runner, Ok tt).
Proof.
  refine (eq_trans
            (proj2 (dotted_import_skipped (call 0) ∅
                      (λ path, Raise (FileNotFoundError path)) 1 "lib" "tools"
                      ["x"] [] new_Runner _)) eq_refl).
  discriminate.
Defined.

Lemma import_prefix_cons module name names scope :
  import_prefix module (name :: names) scope
  = import_prefix module names
      (match module !! name with
       | Some attr => set_var scope name attr false
       | None => scope
       end).
Proof. reflexivity. Qed.

Lemma import_prefix_other module names scope x :
  x ∉ names →
  get_var (import_prefix module names scope) x = get_var scope x.
Proof.
  revert scope. induction names as [| name names IH]; intros scope Hx;
    [reflexivity |].
  apply not_elem_of_cons in Hx as [Hne Hx].
  rewrite import_prefix_cons, (IH _ Hx).
  destruct (module !! name); [| reflexivity].
  apply get_var_set_var_ne, Hne.
Qed.

Lemma import_prefix_bound module names scope x attr :
  x ∈ names → module !! x = Some attr → _STD_TYPES !! x = None →
  get_var (import_prefix module names scope) x = Ok (stored attr).
Proof.
  intros Hin Hx Hstd. revert scope Hin.
  induction names as [| name names IH]; intros scope Hin;
    [apply elem_of_nil in Hin; contradiction |].
  rewrite import_prefix_cons.
  destruct (decide (x ∈ names)) as [Hrest | Hrest]; [apply IH, Hrest |].
  apply elem_of_cons in Hin as [<- | Hin]; [| contradiction].
  rewrite (import_prefix_other _ _ _ _ Hrest), Hx.
  apply get_var_set_var_eq; [exact Hstd | discriminate].
Qed.

(** X14.  A standard-library import whose module exists and exports every
    name listed completes, and then each listed name that is no built-in
    type name looks up to what the module exports under it, a host value
    in its wrapper, while every identifier not listed looks up as
    before. *)
Theorem std_import_binds_every_name modules stmt form module importing r :
  modules !! ("violet." ++ ast.transform_to_string form) = Some module →
  Forall (λ name, is_Some (module !! name)) importing →
  ∃ r',
    _exec_std_import modules stmt form importing r = (r', Ok tt) ∧
    heap r' = heap r ∧
    (∀ name attr,
       name ∈ importing → module !! name = Some attr →
       _STD_TYPES !! name = None →
       get_var (get_current_scope r') name = Ok (stored attr)) ∧
    (∀ x, x ∉ importing →
          get_var (get_current_scope r') x = get_var (get_current_scope r) x).
Proof.
  intros Hm Hall. unfold _exec_std_import. rewrite Hm.
  rewrite (import_names_succeeds _ _ _ _ _ Hall).
  eexists. split; [reflexivity |]. split; [reflexivity |].
  cbn [with_scope get_current_scope active_scope]. split.
  - intros name attr. apply import_prefix_bound.
  - intros x. apply import_prefix_other.
Qed.

(** X14 on the import of [a] from a module [std] that exports the host
    integer 7 under that name. *)
Lemma std_import_binds_every_name_witness :
  let modules : gmap string (gmap string Value) :=
    {[ "violet.std" := {[ "a" := objects.Native (objects.PyInt 7) ]} ]} in
  ∃ r',
    _exec_std_import modules import_a_b (ast.ModuleName "std") ["a"] new_Runner
    = (r', Ok tt) ∧
    get_var (get_current_scope r') "a"
    = Ok (objects.ThinPythonObjectWrapper (objects.PyInt 7)).
Proof.
  intros modules.
  destruct (std_import_binds_every_name modules import_a_b
              (ast.ModuleName "std")
              {[ "a" := objects.Native (objects.PyInt 7) ]} ["a"] new_Runner
              eq_refl)
    as (r' & Hrun & _ & Hbound & _).
  - apply List.Forall_cons; [eexists; reflexivity | apply List.Forall_nil].
  - exists r'. split; [exact Hrun |].
    apply (Hbound "a" (objects.Native (objects.PyInt 7)));
      [apply list_elem_of_here | reflexivity | reflexivity].
Defined.

Lemma local_import_exit call modules open_run line module_name importing rest
    code r :
  module_name ≠ "std" →
  open_run (module_name ++ ".vi") = Raise (SystemExit code) →
  exec_module_body call modules open_run
    (ast.Import line (ast.ModuleName module_name) importing :: rest) r
  = (r, Raise (SystemExit code)).
Proof.
  intros Hname Hopen.
  cbn [exec_module_body exec_module_statement]. unfold _exec_import.
  destruct (decide (module_name = "std")); [contradiction |].
  unfold _exec_local_import. rewrite Hopen. reflexivity.
Qed.

Lemma run_S host fuel debug parsed :
  run host (S fuel) debug parsed
  = run_body (call (S fuel))
      (exec_module (call (S fuel)) (host_modules host)
         (Runner_open_run host (run host fuel false)))
      debug parsed.
Proof. reflexivity. Qed.

Lemma open_run_unparsable host fuel path :
  host_files host !! path = Some None →
  Runner_open_run host (run host (S fuel) false) path = Raise (SystemExit 1).
Proof. intros H. unfold Runner_open_run. rewrite H. reflexivity. Qed.

(** X15.  The exit of an imported module is the exit of the importing
    program: when the source file of a local import does not parse, the
    nested [run] exits with status 1, which is no [Exception]; it passes
    the handler of [_exec_local_import], the statement boundary and the
    handlers of [run], so that the importing program ends with exit status
    1 at the import, in debug mode too, with nothing bound. *)
Theorem import_of_unparsable_module host fuel debug line module_name importing
    rest r :
  module_name ≠ "std" →
  host_files host !! (module_name ++ ".vi") = Some None →
  run host (S (S fuel)) debug
    (Some (ast.Import line (ast.ModuleName module_name) importing :: rest)) r
  = (r, Raise (SystemExit 1)).
Proof.
  intros Hname Hfile. rewrite run_S.
  pose proof (open_run_unparsable host fuel _ Hfile) as Hopen.
  set (open_run := Runner_open_run host _) in *.
  unfold run_body, exec_module, bind.
  rewrite (local_import_exit _ _ _ _ _ _ _ 1 r Hname Hopen).
  reflexivity.
Qed.

(** X15 on a program that imports [x] from [bad], whose file does not
    parse. *)
Lemma import_of_unparsable_module_witness :
  run (mkHost ∅ {[ "bad.vi" := None ]}) 2 true
    (Some [ast.Import 1 (ast.ModuleName "bad") ["x"]]) new_Runner
  = (new_Runner, Raise (SystemExit 1)).
Proof.
  apply (import_of_unparsable_module (mkHost ∅ {[ "bad.vi" := None ]}) 0 true
           1 "bad" ["x"] [] new_Runner).
  - discriminate.
  - reflexivity.
Defined.

(** ** Exit statuses *)

Ltac no_exit := intros ? ?; discriminate.

Lemma raises_try_except_all {A} (m : M A) h (P : Exc → Prop) :
  raises m P → (∀ e, raises (h e) P) → raises (try_except m h) P.
Proof.
  intros Hm Hh. apply raises_try_except.
  - eapply raises_weaken; [exact Hm | auto].
  - intros e _. apply Hh.
Qed.

Lemma raises_get_func func (P : Exc → Prop) :
  P (AttributeError "NoneType" "_return_flag") → raises (get_func func) P.
Proof.
  intros HP r r' e. unfold get_func. destruct (heap r !! func);
    intros H; [discriminate |]. injection H as _ <-. exact HP.
Qed.

Lemma raises_set_func func f (P : Exc → Prop) :
  P (AttributeError "NoneType" "_return_flag") → raises (set_func func f) P.
Proof.
  intros HP r r' e. unfold set_func. destruct (heap r !! func);
    intros H; [discriminate |]. injection H as _ <-. exact HP.
Qed.

Lemma raises_new_scope {A} (body : M A) P :
  raises body P → raises (new_scope body) P.
Proof.
  intros Hb r r' e. unfold new_scope. destruct (body _) as [r1 out] eqn:E.
  intros H. injection H as _ ->. eapply Hb, E.
Qed.

Lemma raises_out_of_fuel {A} P : raises (@out_of_fuel A) P.
Proof. intros r r' e H. discriminate. Qed.

Ltac lift_no_exit :=
  apply raises_lift;
  let e := fresh "e" in
  let He := fresh "He" in
  intros e He;
  first [ apply get_var_raises in He
        | apply type_check_raises in He
        | apply reassign_var_raises in He as [He | [He | [? He]]] ];
  subst e; no_exit.

Section Exits.

Variable call : nat → list Value → M Value.
Hypothesis exits_call : ∀ func args, raises (call func args) exit_status_ok.

Lemma exits_eval_args ev args :
  Forall (λ e, raises (ev e) exit_status_ok) args →
  raises (eval_args ev args) exit_status_ok.
Proof.
  induction 1 as [| e args He _ IH]; cbn [eval_args].
  - apply raises_ret.
  - apply raises_bind; [exact He |]. intros v.
    apply raises_bind; [exact IH |]. intros vs. apply raises_ret.
Qed.

Lemma exits_eval e : raises (eval call e) exit_status_ok.
Proof.
  induction e as [value | name | name args IH | op lhs rhs IHl IHr]
    using Expr_nested_ind; cbn [eval].
  - apply raises_ret.
  - apply raises_bind; [apply raises_get_runner |]. intros self.
    lift_no_exit.
  - apply raises_bind; [apply raises_get_runner |]. intros self.
    apply raises_bind; [lift_no_exit |]. intros f.
    apply raises_bind; [apply exits_eval_args, IH |]. intros argv.
    destruct f; try (apply raises_raise; no_exit). apply exits_call.
  - apply raises_bind; [exact IHl |]. intros l.
    apply raises_bind; [exact IHr |]. intros r.
    unfold operate. destruct l; try (apply raises_raise; no_exit).
    destruct r; try (apply raises_raise; no_exit). apply raises_ret.
Qed.

Lemma exits_exec_assignment statement reassign g c x t e :
  raises (_exec_assignment call statement reassign g c x t e) exit_status_ok.
Proof.
  unfold _exec_assignment. apply raises_bind.
  { apply raises_try_except_all; [apply exits_eval |].
    intros e'. apply raises_raise. no_exit. }
  intros v. apply raises_bind; [apply raises_get_runner |]. intros self.
  destruct reassign.
  - destruct (negb _); [apply raises_raise; no_exit |].
    apply raises_try_except_all; [| intros e'; apply raises_raise; no_exit].
    apply raises_bind; [lift_no_exit |]. intros scope'.
    apply raises_set_scope.
  - apply raises_bind.
    + destruct t; [lift_no_exit | apply raises_ret].
    + intros _. destruct g; [apply raises_set_global | apply raises_set_scope].
Qed.

Lemma exits_exec_return expr func :
  raises (_exec_return call expr func) exit_status_ok.
Proof.
  unfold _exec_return, infer_return_type. apply raises_bind.
  { destruct expr; [apply exits_eval | apply raises_raise; no_exit]. }
  intros ret0. apply raises_bind.
  { apply raises_bind; [apply raises_get_func; no_exit |]. intros fo.
    destruct (return_type fo); [apply raises_ret |].
    apply raises_bind.
    - destruct (objects.is_Object ret0); [apply raises_ret |].
      unfold wrap_py_type. destruct (_PY_TYPES _); apply raises_raise; no_exit.
    - intros ret1. apply raises_bind; [apply raises_set_func; no_exit |].
      intros _. apply raises_ret. }
  intros ret1. apply raises_bind; [apply raises_get_func; no_exit |].
  intros fo. apply raises_bind.
  { destruct (return_type fo); [lift_no_exit | apply raises_raise; no_exit]. }
  intros _. apply raises_set_func. no_exit.
Qed.

Lemma exits_exec_body_loop step body func :
  Forall (λ statement, raises (step statement func) exit_status_ok) body →
  raises (exec_body_loop step body func) exit_status_ok.
Proof.
  induction 1 as [| statement rest Hs _ IH]; cbn [exec_body_loop].
  - apply raises_ret.
  - apply raises_bind; [apply raises_get_func; no_exit |]. intros fo.
    destruct (_return_flag fo); [apply raises_ret |].
    apply raises_bind; [intros r r' e H; discriminate |]. intros _.
    apply raises_bind; [exact Hs |]. intros _. exact IH.
Qed.

Lemma exits_exec_function_statement statement func :
  raises (exec_function_statement call statement func) exit_status_ok.
Proof.
  induction statement
    as [line condition body IH | line name params body _ | line form importing
        | line g c x t e | line x e | line e | line e]
    using Stmt_nested_ind; cbn [exec_function_statement];
    try (apply raises_raise; no_exit).
  - apply raises_bind; [apply exits_eval |]. intros c.
    destruct c; try (apply raises_raise; no_exit).
    destruct b; [| apply raises_ret].
    apply exits_exec_body_loop. exact IH.
  - apply exits_exec_assignment.
  - apply exits_exec_assignment.
  - apply raises_bind; [apply exits_exec_return |]. intros _.
    apply raises_set_func. no_exit.
  - destruct e; try (apply raises_raise; no_exit).
    apply raises_bind; [apply (exits_eval (ast.FunctionCall _ _)) |].
    intros _. apply raises_ret.
Qed.

Lemma exits_exec_function_body body func :
  raises (exec_function_body call body func) exit_status_ok.
Proof.
  apply exits_exec_body_loop, Forall_forall. intros statement _.
  apply exits_exec_function_statement.
Qed.

Variable modules : gmap string (gmap string Value).
Variable open_run : string → Res (option Runner).
Hypothesis exits_open_run :
  ∀ path e, open_run path = Raise e → exit_status_ok e.

Lemma exits_exec_import stmt form importing :
  raises (_exec_import modules open_run stmt form importing) exit_status_ok.
Proof.
  unfold _exec_import.
  assert (Hstd : raises (_exec_std_import modules stmt form importing)
                   exit_status_ok).
  { unfold _exec_std_import. destruct (modules !! _) as [module |];
      [| apply raises_raise; no_exit].
    apply raises_import_names. intros iport. unfold std_fetch.
    destruct (module !! iport); [apply raises_ret | apply raises_raise; no_exit]. }
  destruct form as [base attr | base];
    destruct (decide (base = "std")); try exact Hstd; [apply raises_ret |].
  unfold _exec_local_import. apply raises_bind.
  - destruct (open_run _) as [new | e |] eqn:E;
      try (apply raises_lift; discriminate).
    pose proof (exits_open_run _ _ E) as He.
    destruct e; try (apply raises_lift; intros e' He'; injection He' as <-;
                     exact He).
    apply raises_raise. no_exit.
  - intros new. apply raises_import_names. intros iport.
    apply raises_try_except_all; [| intros e; apply raises_raise; no_exit].
    destruct new; [lift_no_exit | apply raises_raise; no_exit].
Qed.

Lemma exits_exec_module_body stmt_list :
  raises (exec_module_body call modules open_run stmt_list) exit_status_ok.
Proof.
  induction stmt_list as [| statement rest IH]; cbn [exec_module_body];
    [apply raises_ret |].
  apply raises_bind; [| intros _; exact IH].
  apply raises_try_except_all;
    [| intros e; destruct e; apply raises_raise; no_exit].
  destruct statement; cbn [exec_module_statement];
    try (apply raises_raise; no_exit).
  - apply exits_exec_import.
  - apply exits_exec_assignment.
  - apply exits_exec_assignment.
  - unfold _exec_function_spawn.
    apply raises_bind; [intros r r' e H; discriminate |]. intros f.
    apply raises_bind; [apply raises_get_runner |]. intros self.
    apply raises_set_scope.
Qed.

End Exits.

Lemma exits_call fuel func args : raises (call fuel func args) exit_status_ok.
Proof.
  revert func args. induction fuel as [| fuel IH]; intros func args;
    cbn [call]; [apply raises_out_of_fuel |].
  unfold call_function.
  apply raises_bind; [apply raises_get_func; no_exit |]. intros fo.
  apply raises_bind.
  { apply raises_new_scope.
    apply raises_bind; [apply raises_get_runner |]. intros self.
    apply raises_bind; [apply raises_set_scope |]. intros _.
    apply raises_bind; [apply raises_set_func; no_exit |]. intros _.
    apply exits_exec_function_body. exact IH. }
  intros _. apply raises_bind; [apply raises_get_func; no_exit |]. intros fo'.
  apply raises_bind; [apply raises_set_func; no_exit |]. intros _.
  apply raises_ret.
Qed.

Lemma exits_run_body call exec debug parsed :
  (∀ func args, raises (call func args) exit_status_ok) →
  (∀ body, raises (exec body) exit_status_ok) →
  raises (run_body call exec debug parsed) exit_status_ok.
Proof.
  intros Hcall Hexec. unfold run_body, sys_exit.
  destruct parsed as [body |];
    [| apply raises_raise; intros code H; injection H as <-; auto].
  apply raises_bind.
  { intros r r' e. destruct (exec body r) as [r1 [a | e1 |]] eqn:E;
      try discriminate.
    pose proof (Hexec body _ _ _ E) as He1.
    destruct e1; try (intros H; injection H as _ <-; exact He1).
    - unfold raise. intros H. injection H as _ <-.
      intros code H. injection H as <-. auto.
    - destruct debug; unfold raise; intros H; injection H as _ <-;
        [no_exit |]. intros code H. injection H as <-. auto. }
  intros _. apply raises_bind; [apply raises_get_runner |]. intros self.
  apply raises_bind.
  { destruct (get_var _ "main") as [a | e1 |] eqn:E.
    - apply raises_lift. discriminate.
    - apply get_var_raises in E as ->. apply raises_raise.
      intros code H. injection H as <-. auto.
    - apply raises_lift. discriminate. }
  intros main. destruct main; try (apply raises_raise; no_exit).
  apply raises_bind; [| intros _; apply raises_ret].
  apply raises_try_except.
  - eapply raises_weaken; [apply raises_new_scope, Hcall | auto].
  - intros e He. destruct debug.
    + apply raises_raise. intros code ->. discriminate.
    + apply raises_raise. intros code H. injection H as <-. auto.
Qed.

Lemma exits_run host fuel debug parsed :
  raises (run host fuel debug parsed) exit_status_ok.
Proof.
  revert debug parsed. induction fuel as [| fuel IH]; intros debug parsed;
    [apply raises_out_of_fuel |].
  rewrite run_S. apply exits_run_body; [apply exits_call |].
  intros body. unfold exec_module.
  apply exits_exec_module_body; [apply exits_call |].
  intros path e. unfold Runner_open_run.
  destruct (host_files host !! path) as [nested |].
  - destruct (run host fuel false nested new_Runner) as [r' out] eqn:E.
    cbn [snd]. intros ->. eapply IH, E.
  - intros H. injection H as <-. no_exit.
Qed.

(** X16.  Whenever [run] ends the process, the exit status is 1 or 9, in
    debug mode or not, whether the exit is its own or that of a module
    imported at any depth: nothing the engine executes exits otherwise. *)
Theorem run_exit_status host fuel debug parsed r r' code :
  run host fuel debug parsed r = (r', Raise (SystemExit code)) →
  code = 1%Z ∨ code = 9%Z.
Proof. intros H. exact (exits_run host fuel debug parsed _ _ _ H code eq_refl). Qed.

(** X16 on a program that defines no [main]. *)
Lemma run_exit_status_witness :
  run (mkHost ∅ ∅) 1 false (Some []) new_Runner
  = (new_Runner, Raise (SystemExit 1)) ∧
  (1 = 1 ∨ 1 = 9)%Z.
Proof.
  split; [reflexivity |].
  exact (run_exit_status (mkHost ∅ ∅) 1 false (Some []) new_Runner new_Runner
           1 eq_refl).
Defined.

(** ** The debug flag *)

(** X17.  The debug flag changes how [run] reports a failure and nothing
    else: with and without it a run reaches the same runner state, and
    completes, fails or lacks fuel alike, with the same result when it
    completes. *)
Theorem debug_changes_reporting_only host fuel parsed r :
  fst (run host fuel true parsed r) = fst (run host fuel false parsed r) ∧
  match snd (run host fuel true parsed r),
        snd (run host fuel false parsed r) with
  | Ok new, Ok new' => new = new'
  | Raise _, Raise _ => True
  | OutOfFuel, OutOfFuel => True
  | _, _ => False
  end.
Proof.
  destruct fuel as [| fuel]; [split; reflexivity |].
  rewrite !run_S.
  set (exec := exec_module _ _ _). set (callf := call (S fuel)).
  unfold run_body. destruct parsed as [body |]; [| split; reflexivity].
  unfold bind, sys_exit, raise, get_runner.
  destruct (exec body r) as [r1 [[] | e |]]; cbn [fst snd];
    [| destruct e; split; reflexivity | split; reflexivity].
  destruct (get_var (get_current_scope r1) "main") as [main | e |];
    [| destruct e; split; reflexivity | split; reflexivity].
  unfold lift. destruct main; try (split; reflexivity).
  unfold try_except, ret.
  destruct (new_scope (callf ref [objects.List [objects.String "a"]]) r1)
    as [r2 [v | e |]]; try (split; reflexivity).
  destruct (is_Exception e); split; reflexivity.
Qed.

(** ** The values the engine stores *)

(** X18.  The engine stores the host [None] in no scope: a call, and the
    execution of a module body, started on scopes none of whose bindings
    holds it, end on such scopes, whatever the outcome.  So on every state
    a module reaches from a new runner the lookup of [get_var] is the one
    of [lookup]: no binding is taken for missing. *)
Theorem engine_stores_no_host_None fuel :
  (∀ func args r r' out,
     call fuel func args r = (r', out) → scopes_ok r → scopes_ok r') ∧
  (∀ modules open_run stmt_list r r' out,
     exec_module_body (call fuel) modules open_run stmt_list r = (r', out) →
     scopes_ok r → scopes_ok r') ∧
  (∀ modules open_run body r' out x,
     exec_module (call fuel) modules open_run body new_Runner = (r', out) →
     get_var (get_current_scope r') x = lookup (get_current_scope r') x).
Proof.
  split; [| split].
  - intros func args. apply preserves_call.
  - intros modules open_run stmt_list.
    apply preserves_exec_module_body. apply preserves_call.
  - intros modules open_run body r' out x H. apply get_var_is_lookup.
    eapply (preserves_exec_module_body (call fuel) (preserves_call fuel));
      [exact H | apply stored_ok_new].
Qed.

(** X18 on the module that defines [g] and on a call of [g]. *)
Lemma engine_stores_no_host_None_witness :
  get_var (get_current_scope runner_g) "g"
  = lookup (get_current_scope runner_g) "g" ∧
  scopes_ok (fst (call 1 0 [objects.Boolean false] runner_g)).
Proof.
  split.
  - apply (proj2 (proj2 (engine_stores_no_host_None 0)) ∅
             (λ path, Raise (FileNotFoundError path)) [g_def] runner_g
             (Ok tt) "g").
    reflexivity.
  - apply (proj1 (engine_stores_no_host_None 1) 0 [objects.Boolean false]
             runner_g _ (snd (call 1 0 [objects.Boolean false] runner_g))).
    + apply surjective_pairing.
    + apply (proj1 (proj2 (engine_stores_no_host_None 0)) ∅
               (λ path, Raise (FileNotFoundError path)) [g_def] new_Runner
               runner_g (Ok tt)); [reflexivity | apply stored_ok_new].
Defined.

(** ** Failures of evaluation *)

(** X19.  An assignment takes over whatever [Exception] the evaluation of
    its expression raises: [_exec_assignment] ends in a [StatementError]
    that carries the assignment and the message of the exception, also
    when that exception is itself the [StatementError] of a statement of a
    called function, whose statement is thereby lost; the runner is as the
    evaluation left it.  At top level the error leaves [exec_module_body]
    so.  An exit passes unchanged. *)
Theorem assignment_takes_over_errors call stmt reassign g c x t e r r1 e' :
  eval call e r = (r1, Raise e') →
  _exec_assignment call stmt reassign g c x t e r
  = (r1, Raise (if is_Exception e' then StatementError stmt (str e') else e')) ∧
  ∀ modules open_run line rest,
    exec_module_body call modules open_run
      (ast.Assignment line g c x t e :: rest) r
    = (r1, Raise (if is_Exception e'
                  then StatementError (ast.Assignment line g c x t e) (str e')
                  else e')).
Proof.
  intros He.
  assert (E : ∀ stmt reassign,
             _exec_assignment call stmt reassign g c x t e r
             = (r1, Raise (if is_Exception e'
                           then StatementError stmt (str e') else e'))).
  { intros stmt0 reassign0. unfold _exec_assignment.
    apply bind_Raise. unfold try_except. rewrite He.
    destruct (is_Exception e'); reflexivity. }
  split; [apply E |].
  intros modules open_run line rest.
  cbn [exec_module_body exec_module_statement].
  apply bind_Raise. unfold try_except. rewrite E.
  destruct (is_Exception e') eqn:Hexc; [reflexivity |].
  rewrite Hexc. reflexivity.
Qed.

(** X19 on [x = g(True)] at top level: the return of a string from [g],
    whose return type is [Integer], fails inside [g]. *)
Lemma assignment_takes_over_errors_witness :
  let r := fst (call 1 0 [objects.Boolean false] runner_g) in
  let e := ast.FunctionCall "g" [ast.Primitive (objects.Boolean true)] in
  snd (exec_module_body (call 1) ∅ (λ path, Raise (FileNotFoundError path))
         [ast.Assignment 7 false false "x" None e] r)
  = Raise (StatementError (ast.Assignment 7 false false "x" None e)
             (MsgTypeMismatch "Integer" (objects.String "a"))).
Proof.
  intros r e.
  rewrite (proj2 (assignment_takes_over_errors (call 1)
                    (ast.Assignment 7 false false "x" None e) false false
                    false "x" None e r
                    (fst (eval (call 1) e r))
                    (TypeMismatchError "Integer" (objects.String "a"))
                    eq_refl) ∅ (λ path, Raise (FileNotFoundError path)) 7 []).
  reflexivity.
Defined.

(** ** Function definitions *)

(** X20.  A function definition binds its name, mutable, in the current
    scope to a new function object: if the name is no built-in type name
    it looks up next to a function value whose object has the parameters
    and the body of the definition and no return recorded; the function
    objects there were are as before, and so is the lookup of every other
    identifier. *)
Theorem function_definition_then_lookup line name params body r :
  _STD_TYPES !! name = None →
  ∃ r' ref,
    _exec_function_spawn line name params body r = (r', Ok tt) ∧
    get_var (get_current_scope r') name = Ok (objects.Function ref) ∧
    heap r' !! ref = Some (mkFunction name params body line None None false) ∧
    (∀ func fo, heap r !! func = Some fo → heap r' !! func = Some fo) ∧
    (∀ x, x ≠ name →
          get_var (get_current_scope r') x = get_var (get_current_scope r) x).
Proof.
  intros Hstd. eexists _, (length (heap r)).
  split; [reflexivity |].
  cbn [get_current_scope active_scope heap]. repeat split.
  - apply (get_var_set_var_eq _ name (objects.Function (length (heap r))) false);
      [exact Hstd | discriminate].
  - apply list_lookup_middle. reflexivity.
  - intros func fo Hf. apply lookup_app_l_Some, Hf.
  - intros x Hx. apply get_var_set_var_ne, Hx.
Qed.

(** X20 on the definition of [g] in a new runner. *)
Lemma function_definition_then_lookup_witness :
  ∃ r' ref,
    _exec_function_spawn 1 "g" ["n"] g_body new_Runner = (r', Ok tt) ∧
    get_var (get_current_scope r') "g" = Ok (objects.Function ref) ∧
    heap r' !! ref = Some (mkFunction "g" ["n"] g_body 1 None None false).
Proof.
  destruct (function_definition_then_lookup 1 "g" ["n"] g_body new_Runner
              eq_refl) as (r' & ref & H1 & H2 & H3 & _).
  exists r', ref. repeat split; assumption.
Defined.
